(** * RTOD-yv8: the frame pipeline of [python.py]

    A shallow embedding of the three long-running activities of the
    program ([capture_frames], [process_frames], [generate_frames]) and of
    the state they share ([frame_queue], [processed_frame], [lock]),
    followed by the properties of the hand-off between them.

    Frames are numpy arrays, that is, mutable objects: the embedding keeps
    an object store and passes references around, as Python does.  The
    threads are interleaved step by step; a step holds at most one
    [with lock:] block, which runs as a whole, together with what the
    thread does on its own just before and after it. *)

From Stdlib.Strings Require Import Byte String.
From stdpp Require Import base option list sorting.

(** ** Objects *)

(** A reference to an array in the object store. *)
Abbreviation loc := nat.

(** The pixel buffer of a [numpy.ndarray] of dtype uint8 (shape left out). *)
Abbreviation ndarray := (list byte).

(** ** [queue.Queue]

    The standard library's bounded FIFO, with the calls the program makes:
    [empty()], [get()] and [put(item)], the latter two with their default
    [block=True, timeout=None].  A call that would wait has no result
    here ([None]): nothing in the model wakes it up. *)
Module Queue.

Record t := mk { maxsize : nat; items : list loc }.

(** [Queue(maxsize)] *)
Definition new (n : nat) : t := mk n [].

Definition qsize (q : t) : nat := length (items q).

(** [empty()]: [not self._qsize()] *)
Definition empty (q : t) : bool := Nat.eqb (qsize q) 0.

(** [get()]: waits while the queue is empty, then pops the oldest item. *)
Definition get (q : t) : option (loc * t) :=
  match items q with
  | [] => None
  | x :: rest => Some (x, mk (maxsize q) rest)
  end.

(** [put(item)]: with a positive [maxsize], waits while the queue is
    full, then appends. *)
Definition put (x : loc) (q : t) : option t :=
  if Nat.ltb 0 (maxsize q) && Nat.leb (maxsize q) (qsize q)
  then None
  else Some (mk (maxsize q) (items q ++ [x])).

End Queue.

(** ** Shared state (lines 17-20) *)

Record Shared := mkShared {
  frame_queue : Queue.t;           (* frame_queue = queue.Queue(maxsize=1) *)
  processed_frame : option loc;    (* processed_frame = None *)
  lock : bool;                     (* lock = threading.Lock(); true = held *)
  heap : list ndarray              (* the arrays allocated so far *)
}.

Definition initial_shared : Shared :=
  mkShared (Queue.new 1) None false [].

Definition set_frame_queue (q : Queue.t) (s : Shared) : Shared :=
  mkShared q (processed_frame s) (lock s) (heap s).
Definition set_processed_frame (p : option loc) (s : Shared) : Shared :=
  mkShared (frame_queue s) p (lock s) (heap s).
Definition set_lock (b : bool) (s : Shared) : Shared :=
  mkShared (frame_queue s) (processed_frame s) b (heap s).
Definition set_heap (h : list ndarray) (s : Shared) : Shared :=
  mkShared (frame_queue s) (processed_frame s) (lock s) h.

(** ** Observable events *)

Inductive event :=
| LockAcquire                      (* entering [with lock:] *)
| LockRelease                      (* leaving it *)
| QueueEmpty (b : bool)            (* frame_queue.empty() answered b *)
| QueueGet (frame : loc)           (* frame_queue.get() returned frame *)
| QueuePut (frame : loc)           (* frame_queue.put(frame) *)
| Infer (frame : loc)              (* model(frame) *)
| Plot (frame : loc)               (* result.plot() returned frame *)
| Copy (src dst : loc)             (* src.copy() returned dst *)
| Publish (frame : loc)            (* processed_frame = frame *)
| Encode (frame : loc)             (* cv2.imencode('.jpg', frame) *)
| Yield (chunk : list byte)        (* yield chunk *)
| VideoCapture (k : nat)           (* the k-th cv2.VideoCapture(url) *)
| IsOpened (b : bool)              (* cap.isOpened() answered b *)
| PrintRetry (n : nat)             (* print(... Retrying... (n)) *)
| Sleep (secs : nat)               (* time.sleep(secs) *)
| SetBufferSize (n : nat)          (* cap.set(CAP_PROP_BUFFERSIZE, n) *)
| Read (r : option loc)            (* cap.read(): Some frame, or failure *)
| PrintReadWarning                 (* print(... Failed to read frame ...) *)
| CapRelease (k : nat).            (* cap.release() of the k-th capture *)

(** ** Programs over the shared state

    A piece of code runs from a shared state to a status, the state it
    leaves and the events it produced.  [Blocks]: the thread waits inside
    a call (on the lock or in the queue) and goes no further.  [Raises]:
    an exception leaves the code. *)

Inductive status (A : Type) :=
| Done (a : A)
| Blocks
| Raises.
Arguments Done {A} a.
Arguments Blocks {A}.
Arguments Raises {A}.

Definition prog (A : Type) : Type := Shared → status A * Shared * list event.

Definition ret {A} (a : A) : prog A := λ s, (Done a, s, []).

Definition bind {A B} (m : prog A) (f : A → prog B) : prog B := λ s,
  match m s with
  | (Done a, s1, t1) =>
      match f a s1 with (r, s2, t2) => (r, s2, t1 ++ t2) end
  | (Blocks, s1, t1) => (Blocks, s1, t1)
  | (Raises, s1, t1) => (Raises, s1, t1)
  end.

#[global] Instance prog_ret : MRet prog := @ret.
#[global] Instance prog_bind : MBind prog := λ A B f m, bind m f.

Definition emit (e : event) : prog unit := λ s, (Done (), s, [e]).
Definition raise {A} : prog A := λ s, (Raises, s, []).

(** [m] for each element of [l], in order. *)
Fixpoint for_each {A} (m : A → prog unit) (l : list A) : prog unit :=
  match l with
  | [] => mret ()
  | a :: l => m a;; for_each m l
  end.

(** [m], [n] times over; the results in order. *)
Fixpoint times {A} (n : nat) (m : prog A) : prog (list A) :=
  match n with
  | 0 => mret []
  | S n => a ← m; l ← times n m; mret (a :: l)
  end.

(** [lock.acquire()]: waits while another thread holds the lock. *)
Definition lock_acquire : prog unit := λ s,
  if lock s then (Blocks, s, []) else (Done (), set_lock true s, [LockAcquire]).

(** [lock.release()] *)
Definition lock_release : prog unit := λ s,
  (Done (), set_lock false s, [LockRelease]).

(** [with lock: body].  The lock is released when the block is left,
    whether at its end, by [continue] or by an exception; a body that
    waits keeps it. *)
Definition with_lock {A} (body : prog A) : prog A := λ s,
  match lock_acquire s with
  | (Done _, s0, t0) =>
      match body s0 with
      | (Blocks, s1, t1) => (Blocks, s1, t0 ++ t1)
      | (r, s1, t1) =>
          match lock_release s1 with (_, s2, t2) => (r, s2, t0 ++ t1 ++ t2) end
      end
  | (_, s0, t0) => (Blocks, s0, t0)
  end.

(** [frame_queue.empty()] *)
Definition queue_empty : prog bool := λ s,
  let b := Queue.empty (frame_queue s) in (Done b, s, [QueueEmpty b]).

(** [frame_queue.get()] *)
Definition queue_get : prog loc := λ s,
  match Queue.get (frame_queue s) with
  | Some (x, q) => (Done x, set_frame_queue q s, [QueueGet x])
  | None => (Blocks, s, [])
  end.

(** [frame_queue.put(frame)] *)
Definition queue_put (frame : loc) : prog unit := λ s,
  match Queue.put frame (frame_queue s) with
  | Some q => (Done (), set_frame_queue q s, [QueuePut frame])
  | None => (Blocks, s, [])
  end.

(** A new array object holding [a]; its reference is the next free one. *)
Definition alloc (a : ndarray) : prog loc := λ s,
  (Done (length (heap s)), set_heap (heap s ++ [a]) s, []).

(** The contents of the array behind a reference. *)
Definition load (l : loc) : prog ndarray := λ s,
  match heap s !! l with
  | Some a => (Done a, s, [])
  | None => (Raises, s, [])
  end.

(** [frame.copy()] *)
Definition ndarray_copy (frame : loc) : prog loc :=
  a ← load frame; c ← alloc a; emit (Copy frame c);; mret c.

(** [processed_frame = frame] *)
Definition assign_processed_frame (frame : loc) : prog unit := λ s,
  (Done (), set_processed_frame (Some frame) s, [Publish frame]).

(** The global [processed_frame] as it is read. *)
Definition read_processed_frame : prog (option loc) := λ s,
  (Done (processed_frame s), s, []).

(** ** The four locked blocks *)

(** [capture_frames], lines 45-48:
<<
    with lock:
        if not frame_queue.empty():
            frame_queue.get()  # Remove old frame
        frame_queue.put(frame)
>> *)
Definition discard_old : prog unit :=
  e ← queue_empty;
  if negb e then queue_get;; mret () else mret ().

Definition slot_put (frame : loc) : prog unit :=
  with_lock (discard_old;; queue_put frame).

(** [process_frames], lines 55-58; [None] is the [continue]:
<<
    with lock:
        if frame_queue.empty():
            continue
        frame = frame_queue.get()
>> *)
Definition slot_take_if_present : prog (option loc) :=
  with_lock (
    e ← queue_empty;
    if e : bool then (mret None : prog (option loc))
    else frame ← queue_get; mret (Some frame)).

(** [process_frames], lines 68-69:
<<
    with lock:
        processed_frame = frame.copy()
>> *)
Definition slot_publish (frame : loc) : prog unit :=
  with_lock (
    c ← ndarray_copy frame;
    assign_processed_frame c).

(** ** Thread-local state *)

(** Where [capture_frames] stands: at line 28, about to open the camera,
    or at line 39, about to read from the [k]-th capture, whose remaining
    frames are [pending]. *)
Inductive cap_pc :=
| AtOpen
| AtRead (k : nat) (pending : list ndarray).

(** [capture_frames] with its local [retries] and the number of captures
    it has constructed. *)
Record CapThread := mkCap { cap_at : cap_pc; retries : nat; attempts : nat }.

(** Where [process_frames] stands: at line 55, at line 61 with the frame
    it took, or at line 68 with the frame it is about to publish. *)
Inductive det_pc :=
| AtTake
| AtInfer (frame : loc)
| AtPublish (frame : loc).

(** A thread runs, waits for ever, or has died of an exception. *)
Inductive thread (L : Type) :=
| Running (l : L)
| Hung
| Crashed.
Arguments Running {L} l.
Arguments Hung {L}.
Arguments Crashed {L}.

Definition advance {L} (st : status L) : thread L :=
  match st with
  | Done l => Running l
  | Blocks => Hung
  | Raises => Crashed
  end.

Inductive tid :=
| Capture
| Detect
| Client (n : nat).

#[global] Instance tid_eq_dec : EqDecision tid.
Proof. solve_decision. Defined.

(** The whole program: the shared state, the two daemon threads, the
    chunks each client has been sent, and what every thread did. *)
Record System := mkSystem {
  shared : Shared;
  capture : thread CapThread;
  detect : thread det_pc;
  sent : list (nat * list byte);
  log : list (tid * event)
}.

(** Lines 17-20 and 72-73. *)
Definition initial : System :=
  mkSystem initial_shared (Running (mkCap AtOpen 0 0)) (Running AtTake) [] [].

Definition CRLF : list byte := [x0d; x0a].

(** The multipart chunk of lines 86-87. *)
Definition chunk_of (buffer : list byte) : list byte :=
  list_byte_of_string "--frame" ++ CRLF ++
  list_byte_of_string "Content-Type: image/jpeg" ++ CRLF ++ CRLF ++
  buffer ++ CRLF.

Section Pipeline.

(** The collaborators the program calls into. *)

(** The camera: the [k]-th [cv2.VideoCapture(ip_camera_url)] either is
    not opened ([None]) or delivers the listed frames, as many as one
    likes, one per [cap.read()], and then fails to read. *)
Variable camera : nat → option (list ndarray).

(** [model(frame)]: raises ([None]) or returns the results, each given
    by the image its [plot()] draws. *)
Variable model : ndarray → option (list ndarray).

(** [cv2.imencode('.jpg', frame)]: the encoded buffer. *)
Variable imencode : ndarray → list byte.

(** [generate_frames], lines 80-84; [None] is the [continue]:
<<
  with lock:
      if processed_frame is None:
          continue  # Ensure a frame is available
      _, buffer = cv2.imencode('.jpg', processed_frame)
>> *)
Definition slot_peek : prog (option (list byte)) :=
  with_lock (
    p ← read_processed_frame;
    match p with
    | None => mret None
    | Some frame =>
        a ← load frame; emit (Encode frame);; mret (Some (imencode a))
    end).

(** One turn of a loop of [capture_frames]: lines 28-36 from [AtOpen],
    lines 39-48 from [AtRead]. *)
Definition capture_frames_step (c : CapThread) : prog CapThread :=
  match cap_at c with
  | AtOpen =>
      let k := attempts c in
      emit (VideoCapture k);;
      match camera k with
      | None =>
          emit (IsOpened false);;
          let r := S (retries c) in
          emit (PrintRetry r);;
          emit (Sleep 2);;
          mret (mkCap AtOpen r (S k))
      | Some frames =>
          emit (IsOpened true);;
          emit (SetBufferSize 1);;
          mret (mkCap (AtRead k frames) (retries c) (S k))
      end
  | AtRead k [] =>
      emit (Read None);;
      emit PrintReadWarning;;
      emit (CapRelease k);;
      mret (mkCap AtOpen (retries c) (attempts c))
  | AtRead k (a :: rest) =>
      frame ← alloc a;
      emit (Read (Some frame));;
      slot_put frame;;
      mret (mkCap (AtRead k rest) (retries c) (attempts c))
  end.

(** Lines 64-65: [for result in results: frame = result.plot()]. *)
Fixpoint plot_all (results : list ndarray) (frame : loc) : prog loc :=
  match results with
  | [] => mret frame
  | r :: rest => f ← alloc r; emit (Plot f);; plot_all rest f
  end.

(** [process_frames]: lines 55-58, lines 61-65, lines 68-69. *)
Definition process_frames_step (pc : det_pc) : prog det_pc :=
  match pc with
  | AtTake =>
      o ← slot_take_if_present;
      mret (match o with None => AtTake | Some frame => AtInfer frame end)
  | AtInfer frame =>
      a ← load frame;
      emit (Infer frame);;
      match model a with
      | None => raise
      | Some results => f ← plot_all results frame; mret (AtPublish f)
      end
  | AtPublish frame =>
      slot_publish frame;;
      mret AtTake
  end.

(** One turn of the loop of [generate_frames], lines 80-87: the chunk
    it yields, if any. *)
Definition generate_frames_step : prog (option (list byte)) :=
  o ← slot_peek;
  match o with
  | None => mret None
  | Some buffer =>
      let chunk := chunk_of buffer in
      emit (Yield chunk);; mret (Some chunk)
  end.

(** ** Interleaving *)

Definition tag (t : tid) (tr : list event) : list (tid * event) :=
  map (pair t) tr.

(** The scheduler lets thread [t] take its next step. *)
Definition sys_step (t : tid) (σ : System) : System :=
  match t with
  | Capture =>
      match capture σ with
      | Running c =>
          match capture_frames_step c (shared σ) with
          | (st, sh, tr) =>
              mkSystem sh (advance st) (detect σ) (sent σ)
                       (log σ ++ tag Capture tr)
          end
      | _ => σ
      end
  | Detect =>
      match detect σ with
      | Running pc =>
          match process_frames_step pc (shared σ) with
          | (st, sh, tr) =>
              mkSystem sh (capture σ) (advance st) (sent σ)
                       (log σ ++ tag Detect tr)
          end
      | _ => σ
      end
  | Client n =>
      match generate_frames_step (shared σ) with
      | (st, sh, tr) =>
          mkSystem sh (capture σ) (detect σ)
                   (sent σ ++ match st with
                              | Done (Some chunk) => [(n, chunk)]
                              | _ => []
                              end)
                   (log σ ++ tag (Client n) tr)
      end
  end.

Definition run (sched : list tid) (σ : System) : System :=
  foldl (λ σ t, sys_step t σ) σ sched.

End Pipeline.

(** ** Reading a log *)

(** What thread [t] did, in order. *)
Definition thread_trace (t : tid) (l : list (tid * event)) : list event :=
  omap (λ te, if decide (te.1 = t) then Some te.2 else None) l.

(** The events of a thread's trace that happen while it holds the lock,
    [held] telling whether it does at the start. *)
Fixpoint under_lock (held : bool) (tr : list event) : list event :=
  match tr with
  | [] => []
  | LockAcquire :: tr => under_lock true tr
  | LockRelease :: tr => under_lock false tr
  | e :: tr => if held then e :: under_lock held tr else under_lock held tr
  end.

(** The events that happen while it does not. *)
Fixpoint outside_lock (held : bool) (tr : list event) : list event :=
  match tr with
  | [] => []
  | LockAcquire :: tr => outside_lock true tr
  | LockRelease :: tr => outside_lock false tr
  | e :: tr => if held then outside_lock held tr else e :: outside_lock held tr
  end.

(** Whether the thread holds the lock at the end of its trace. *)
Fixpoint lock_after (held : bool) (tr : list event) : bool :=
  match tr with
  | [] => held
  | LockAcquire :: tr => lock_after true tr
  | LockRelease :: tr => lock_after false tr
  | _ :: tr => lock_after held tr
  end.

(** The frames a trace removed from the queue, in order. *)
Definition got (tr : list event) : list loc :=
  omap (λ e, match e with QueueGet frame => Some frame | _ => None end) tr.

(** The frames the detector took (line 58). *)
Definition taken (l : list (tid * event)) : list loc :=
  got (thread_trace Detect l).

(** How many turns a schedule gives the capture thread. *)
Fixpoint capture_turns (sched : list tid) : nat :=
  match sched with
  | [] => 0
  | Capture :: sched => S (capture_turns sched)
  | _ :: sched => capture_turns sched
  end.

(** What the capture thread logs for [m] failed attempts in a row, the
    first of them attempt [k], with [r] retries counted before. *)
Definition failed_attempts (r k m : nat) : list event :=
  flat_map (λ i, [VideoCapture (k + i); IsOpened false;
                  PrintRetry (r + S i); Sleep 2])
           (seq 0 m).

(** Access to one of the two slots: the queue calls, and the copy and
    assignment that make up line 69. *)
Definition is_slot_access (e : event) : bool :=
  match e with
  | QueueEmpty _ | QueueGet _ | QueuePut _ | Copy _ _ | Publish _ => true
  | _ => false
  end.

Definition is_encode (e : event) : bool :=
  match e with Encode _ => true | _ => false end.

Definition is_yield (e : event) : bool :=
  match e with Yield _ => true | _ => false end.

(** A thread's trace keeps the lock discipline of the source: it ends
    with the lock released, what it does under the lock is slot access or
    encoding, and it never encodes without the lock. *)
Definition disciplined (tr : list event) : bool :=
  negb (lock_after false tr)
  && forallb (λ e, is_slot_access e || is_encode e) (under_lock false tr)
  && forallb (λ e, negb (is_encode e)) (outside_lock false tr).

(** Under the lock, slot access and nothing else. *)
Definition only_slot_access_locked (l : list (tid * event)) : Prop :=
  ∀ t e, e ∈ under_lock false (thread_trace t l) → is_slot_access e = true.

(** The frame [plot_all] ends with: the last array drawn, or the frame
    it started from when there are no results. *)
Definition last_plotted (h results : list ndarray) (frame : loc) : loc :=
  match results with
  | [] => frame
  | _ :: _ => length h + length results - 1
  end.

(** ** Well-formed states and the shape of a step *)

Section Shape.

Variable camera : nat → option (list ndarray).
Variable model : ndarray → option (list ndarray).
Variable imencode : ndarray → list byte.

(** What holds of every state the program reaches: the slot has
    capacity one and at most one occupant, no thread is inside a locked
    block, every reference in use points into the store, the capture
    thread runs and the detector does not wait. *)
Record wf (σ : System) : Prop := mkWf {
  wf_maxsize : Queue.maxsize (frame_queue (shared σ)) = 1;
  wf_size : length (Queue.items (frame_queue (shared σ))) ≤ 1;
  wf_lock : lock (shared σ) = false;
  wf_queue : ∀ l, l ∈ Queue.items (frame_queue (shared σ)) →
                  l < length (heap (shared σ));
  wf_published : ∀ l, processed_frame (shared σ) = Some l →
                      l < length (heap (shared σ));
  wf_capture : ∃ c, capture σ = Running c;
  wf_detect : match detect σ with
              | Running AtTake | Crashed => True
              | Running (AtInfer f) | Running (AtPublish f) =>
                  f < length (heap (shared σ))
              | Hung => False
              end
}.

(** The steps a well-formed state can take, one constructor per path
    through the source. *)
Inductive Step : tid → System → System → Prop :=
| step_open_fails items p h r k det snt lg :
    camera k = None →
    Step Capture
      (mkSystem (mkShared (Queue.mk 1 items) p false h)
                (Running (mkCap AtOpen r k)) det snt lg)
      (mkSystem (mkShared (Queue.mk 1 items) p false h)
                (Running (mkCap AtOpen (S r) (S k))) det snt
                (lg ++ tag Capture [VideoCapture k; IsOpened false;
                                    PrintRetry (S r); Sleep 2]))
| step_open_ok items p h r k frames det snt lg :
    camera k = Some frames →
    Step Capture
      (mkSystem (mkShared (Queue.mk 1 items) p false h)
                (Running (mkCap AtOpen r k)) det snt lg)
      (mkSystem (mkShared (Queue.mk 1 items) p false h)
                (Running (mkCap (AtRead k frames) r (S k))) det snt
                (lg ++ tag Capture [VideoCapture k; IsOpened true;
                                    SetBufferSize 1]))
| step_read_fails items p h r k n det snt lg :
    Step Capture
      (mkSystem (mkShared (Queue.mk 1 items) p false h)
                (Running (mkCap (AtRead k []) r n)) det snt lg)
      (mkSystem (mkShared (Queue.mk 1 items) p false h)
                (Running (mkCap AtOpen r n)) det snt
                (lg ++ tag Capture [Read None; PrintReadWarning;
                                    CapRelease k]))
| step_read_ok items p h r k n a rest det snt lg :
    length items ≤ 1 →
    Step Capture
      (mkSystem (mkShared (Queue.mk 1 items) p false h)
                (Running (mkCap (AtRead k (a :: rest)) r n)) det snt lg)
      (mkSystem (mkShared (Queue.mk 1 [length h]) p false (h ++ [a]))
                (Running (mkCap (AtRead k rest) r n)) det snt
                (lg ++ tag Capture
                   ([Read (Some (length h)); LockAcquire;
                     QueueEmpty (Queue.empty (Queue.mk 1 items))]
                    ++ map QueueGet items
                    ++ [QueuePut (length h); LockRelease])))
| step_take_none p h cap snt lg :
    Step Detect
      (mkSystem (mkShared (Queue.mk 1 []) p false h)
                cap (Running AtTake) snt lg)
      (mkSystem (mkShared (Queue.mk 1 []) p false h)
                cap (Running AtTake) snt
                (lg ++ tag Detect [LockAcquire; QueueEmpty true;
                                   LockRelease]))
| step_take_some x rest p h cap snt lg :
    Step Detect
      (mkSystem (mkShared (Queue.mk 1 (x :: rest)) p false h)
                cap (Running AtTake) snt lg)
      (mkSystem (mkShared (Queue.mk 1 rest) p false h)
                cap (Running (AtInfer x)) snt
                (lg ++ tag Detect [LockAcquire; QueueEmpty false;
                                   QueueGet x; LockRelease]))
| step_infer_raises items p h frame a cap snt lg :
    h !! frame = Some a →
    model a = None →
    Step Detect
      (mkSystem (mkShared (Queue.mk 1 items) p false h)
                cap (Running (AtInfer frame)) snt lg)
      (mkSystem (mkShared (Queue.mk 1 items) p false h)
                cap Crashed snt
                (lg ++ tag Detect [Infer frame]))
| step_infer_ok items p h frame a results cap snt lg :
    h !! frame = Some a →
    model a = Some results →
    Step Detect
      (mkSystem (mkShared (Queue.mk 1 items) p false h)
                cap (Running (AtInfer frame)) snt lg)
      (mkSystem (mkShared (Queue.mk 1 items) p false (h ++ results))
                cap (Running (AtPublish (last_plotted h results frame))) snt
                (lg ++ tag Detect
                   (Infer frame
                    :: map Plot (seq (length h) (length results)))))
| step_publish items p h frame a cap snt lg :
    h !! frame = Some a →
    Step Detect
      (mkSystem (mkShared (Queue.mk 1 items) p false h)
                cap (Running (AtPublish frame)) snt lg)
      (mkSystem (mkShared (Queue.mk 1 items) (Some (length h)) false
                          (h ++ [a]))
                cap (Running AtTake) snt
                (lg ++ tag Detect [LockAcquire; Copy frame (length h);
                                   Publish (length h); LockRelease]))
| step_dead sh cap snt lg :
    Step Detect (mkSystem sh cap Crashed snt lg)
                (mkSystem sh cap Crashed snt lg)
| step_peek_none n items h cap det snt lg :
    Step (Client n)
      (mkSystem (mkShared (Queue.mk 1 items) None false h) cap det snt lg)
      (mkSystem (mkShared (Queue.mk 1 items) None false h) cap det
                (snt ++ [])
                (lg ++ tag (Client n) [LockAcquire; LockRelease]))
| step_peek_some n items frame a h cap det snt lg :
    h !! frame = Some a →
    Step (Client n)
      (mkSystem (mkShared (Queue.mk 1 items) (Some frame) false h)
                cap det snt lg)
      (mkSystem (mkShared (Queue.mk 1 items) (Some frame) false h) cap det
                (snt ++ [(n, chunk_of (imencode a))])
                (lg ++ tag (Client n)
                   [LockAcquire; Encode frame; LockRelease;
                    Yield (chunk_of (imencode a))])).

End Shape.

(** ** More ways to read a log *)

(** The frames a trace put into the queue (line 48), in order. *)
Definition puts (tr : list event) : list loc :=
  omap (λ e, match e with QueuePut frame => Some frame | _ => None end) tr.

(** The frames a trace passed to the model (line 61), in order. *)
Definition inferred (tr : list event) : list loc :=
  omap (λ e, match e with Infer frame => Some frame | _ => None end) tr.

(** The arrays a trace assigned to [processed_frame] (line 69). *)
Definition published (tr : list event) : list loc :=
  omap (λ e, match e with Publish frame => Some frame | _ => None end) tr.

(** The arrays a trace encoded (line 84). *)
Definition encoded (tr : list event) : list loc :=
  omap (λ e, match e with Encode frame => Some frame | _ => None end) tr.

(** The durations a trace slept (line 33). *)
Definition sleeps (tr : list event) : list nat :=
  omap (λ e, match e with Sleep secs => Some secs | _ => None end) tr.

(** The retry numbers a trace printed (line 32). *)
Definition retry_prints (tr : list event) : list nat :=
  omap (λ e, match e with PrintRetry n => Some n | _ => None end) tr.

(** The captures a trace constructed (line 28). *)
Definition constructed (tr : list event) : list nat :=
  omap (λ e, match e with VideoCapture k => Some k | _ => None end) tr.

(** The captures a trace released (line 42). *)
Definition released (tr : list event) : list nat :=
  omap (λ e, match e with CapRelease k => Some k | _ => None end) tr.

(** The buffer sizes a trace set (line 36). *)
Definition buffer_sizes (tr : list event) : list nat :=
  omap (λ e, match e with SetBufferSize n => Some n | _ => None end) tr.

(** The capture [capture_frames] holds open, if any. *)
Definition reading (c : thread CapThread) : list nat :=
  match c with
  | Running (mkCap (AtRead k _) _ _) => [k]
  | _ => []
  end.

(** The frames the open capture has still to deliver. *)
Definition pending (c : thread CapThread) : list ndarray :=
  match c with
  | Running (mkCap (AtRead _ frames) _ _) => frames
  | _ => []
  end.

(** The frame [process_frames] has taken and not yet passed to the
    model. *)
Definition held (d : thread det_pc) : list loc :=
  match d with
  | Running (AtInfer frame) => [frame]
  | _ => []
  end.

(** ** The route (lines 89-92) *)

(** The boundary token of the stream. *)
Definition boundary : string := "frame".

(** [video_feed]: the response's mimetype; its body is the generator. *)
Definition video_feed_mimetype : string :=
  "multipart/x-mixed-replace; boundary=frame".

(** ** A camera, a model and an encoder to run the program on *)

Module Demo.

(** The camera cannot be opened twice, then delivers two frames and
    fails, and cannot be opened again. *)
Definition camera (k : nat) : option (list ndarray) :=
  match k with
  | 2 => Some [[x01]; [x02]]
  | _ => None
  end.

(** A model that finds one result per frame and raises on the frame
    [[x02]]. *)
Definition model (a : ndarray) : option (list ndarray) :=
  match a with
  | [x02] => None
  | _ => Some [a ++ [xff]]
  end.

Definition imencode (a : ndarray) : list byte := xd8 :: a.

Definition run := run camera model imencode.
Definition step := sys_step camera model imencode.

(** Connect at the third attempt, capture a frame, detect and publish
    it, capture the second frame and take it. *)
Definition sched_published : list tid :=
  [Capture; Capture; Capture; Capture; Detect; Detect; Detect; Capture;
   Detect].

End Demo.

(** * Properties *)

Ltac unfold_prog :=
  unfold mbind, prog_bind, bind, mret, prog_ret, ret, emit, raise.

Ltac proj_simpl :=
  cbn [log shared capture detect sent frame_queue processed_frame lock heap
       Queue.items Queue.maxsize] in *.

Section Blocks.

Implicit Types (s : Shared) (frame : loc).

Lemma set_lock_cycle s : lock s = false → set_lock false (set_lock true s) = s.
Proof. destruct s as [q p l h]; simpl; intros ->; reflexivity. Qed.

(** The block of lines 46-47 empties a slot that holds at most one frame. *)
Lemma discard_old_run s :
  length (Queue.items (frame_queue s)) ≤ 1 →
  ∃ tr, discard_old s
        = (Done (), set_frame_queue (Queue.mk (Queue.maxsize (frame_queue s)) []) s, tr)
        ∧ tr = QueueEmpty (Queue.empty (frame_queue s))
               :: map QueueGet (Queue.items (frame_queue s)).
Proof.
  destruct s as [[m [|x [|y l]]] p lk h]; simpl; intros Hlen; try lia.
  - eexists; split; reflexivity.
  - eexists; split; reflexivity.
Qed.

Lemma slot_put_run frame items p h :
  length items ≤ 1 →
  slot_put frame (mkShared (Queue.mk 1 items) p false h)
  = (Done (), mkShared (Queue.mk 1 [frame]) p false h,
     [LockAcquire; QueueEmpty (Queue.empty (Queue.mk 1 items))]
       ++ map QueueGet items ++ [QueuePut frame; LockRelease]).
Proof. destruct items as [|x [|y l]]; simpl; intros; try lia; reflexivity. Qed.

Lemma slot_take_run_empty m p h :
  slot_take_if_present (mkShared (Queue.mk m []) p false h)
  = (Done None, mkShared (Queue.mk m []) p false h,
     [LockAcquire; QueueEmpty true; LockRelease]).
Proof. reflexivity. Qed.

Lemma slot_take_run_full m x rest p h :
  slot_take_if_present (mkShared (Queue.mk m (x :: rest)) p false h)
  = (Done (Some x), mkShared (Queue.mk m rest) p false h,
     [LockAcquire; QueueEmpty false; QueueGet x; LockRelease]).
Proof. reflexivity. Qed.

Lemma slot_publish_run frame a q p h :
  h !! frame = Some a →
  slot_publish frame (mkShared q p false h)
  = (Done (), mkShared q (Some (length h)) false (h ++ [a]),
     [LockAcquire; Copy frame (length h); Publish (length h); LockRelease]).
Proof.
  intros Hf. unfold slot_publish, with_lock, ndarray_copy, load. unfold_prog.
  simpl. rewrite Hf. reflexivity.
Qed.

Lemma locked_blocks {A} (body : prog A) s :
  lock s = true → with_lock body s = (Blocks, s, []).
Proof. intros Hl. unfold with_lock, lock_acquire. rewrite Hl. reflexivity. Qed.

Section Peek.
Variable imencode : ndarray → list byte.

Lemma slot_peek_run_none q h :
  slot_peek imencode (mkShared q None false h)
  = (Done None, mkShared q None false h, [LockAcquire; LockRelease]).
Proof. reflexivity. Qed.

Lemma slot_peek_run_some q frame a h :
  h !! frame = Some a →
  slot_peek imencode (mkShared q (Some frame) false h)
  = (Done (Some (imencode a)), mkShared q (Some frame) false h,
     [LockAcquire; Encode frame; LockRelease]).
Proof.
  intros Hf. unfold slot_peek, with_lock, read_processed_frame, load.
  unfold_prog. simpl. rewrite Hf. reflexivity.
Qed.
End Peek.

Lemma plot_all_run results : ∀ frame q p lk h,
  plot_all results frame (mkShared q p lk h)
  = (Done (last_plotted h results frame), mkShared q p lk (h ++ results),
     map Plot (seq (length h) (length results))).
Proof.
  induction results as [|r rest IH]; intros frame q p lk h.
  - simpl. rewrite app_nil_r. reflexivity.
  - simpl. unfold alloc. unfold_prog. simpl.
    unfold set_heap. simpl. rewrite IH.
    rewrite <- app_assoc. simpl. rewrite length_app. simpl.
    replace (length h + 1) with (S (length h)) by lia.
    do 3 f_equal. unfold last_plotted.
    destruct rest; simpl; rewrite ?length_app; simpl; lia.
Qed.

End Blocks.

Section Semantics.

Variable camera : nat → option (list ndarray).
Variable model : ndarray → option (list ndarray).
Variable imencode : ndarray → list byte.

Lemma run_snoc sched t σ :
  run camera model imencode (sched ++ [t]) σ
  = sys_step camera model imencode t (run camera model imencode sched σ).
Proof. unfold run. rewrite foldl_app. reflexivity. Qed.

Lemma run_app sched1 sched2 σ :
  run camera model imencode (sched1 ++ sched2) σ
  = run camera model imencode sched2 (run camera model imencode sched1 σ).
Proof. unfold run. apply foldl_app. Qed.

Local Abbreviation step := (sys_step camera model imencode).
Local Abbreviation run := (run camera model imencode).
Local Abbreviation Step := (Step camera model imencode).

Lemma Step_eq t σ σ1 σ2 : Step t σ σ1 → σ1 = σ2 → Step t σ σ2.
Proof. intros H <-. exact H. Qed.

(** Every step of a well-formed state has one of the shapes of [Step]. *)
Lemma step_shape t σ : wf σ → Step t σ (step t σ).
Proof.
  intros [Hm Hs Hl Hq Hp [c Hc] Hd].
  destruct σ as [[[m items] p lk h] cap det snt lg]; simpl in *; subst.
  destruct t as [| |n]; simpl.
  - destruct c as [[|k [|a rest]] r n]; simpl.
    + unfold capture_frames_step; simpl. unfold_prog.
      destruct (camera n) eqn:Hcam; simpl.
      * apply step_open_ok; assumption.
      * apply step_open_fails; assumption.
    + apply step_read_fails.
    + unfold capture_frames_step; simpl. unfold alloc. unfold_prog. simpl.
      unfold set_heap; simpl. rewrite slot_put_run by assumption.
      eapply Step_eq; [apply step_read_ok; assumption|].
      simpl. rewrite app_nil_r. reflexivity.
  - destruct det as [[|frame|frame]| |]; simpl; try contradiction.
    + destruct items as [|x rest].
      * apply step_take_none.
      * apply step_take_some.
    + destruct (lookup_lt_is_Some_2 h frame Hd) as [a Ha].
      unfold load. unfold_prog. simpl. rewrite Ha.
      destruct (model a) as [results|] eqn:Hmod; simpl.
      * rewrite plot_all_run.
        eapply Step_eq; [eapply step_infer_ok; eassumption|].
        simpl. rewrite app_nil_r. reflexivity.
      * eapply step_infer_raises; eassumption.
    + destruct (lookup_lt_is_Some_2 h frame Hd) as [a Ha].
      unfold_prog. rewrite (slot_publish_run _ _ _ _ _ Ha).
      eapply Step_eq; [eapply step_publish; eassumption|].
      simpl. reflexivity.
    + apply step_dead.
  - unfold generate_frames_step. unfold_prog. destruct p as [frame|].
    + destruct (lookup_lt_is_Some_2 h frame (Hp _ eq_refl)) as [a Ha].
      rewrite (slot_peek_run_some _ _ _ _ _ Ha).
      eapply Step_eq; [eapply step_peek_some; eassumption|].
      simpl. reflexivity.
    + rewrite slot_peek_run_none.
      eapply Step_eq; [eapply step_peek_none|].
      simpl. reflexivity.
Qed.

Lemma wf_initial : wf initial.
Proof.
  constructor; simpl; try done; try lia.
  - intros l Hl. inversion Hl.
  - eexists; reflexivity.
Qed.

Lemma last_plotted_lt h results frame :
  frame < length h → last_plotted h results frame < length (h ++ results).
Proof.
  unfold last_plotted. rewrite length_app.
  destruct results; simpl; lia.
Qed.

Lemma Step_wf t σ σ' : Step t σ σ' → wf σ → wf σ'.
Proof.
  intros HS [Hm Hs Hl Hq Hp Hc Hd].
  destruct HS; simpl in *; constructor; simpl;
    rewrite ?length_app; simpl;
    try done; try lia; try exact Hc; try (eexists; reflexivity);
    try (intros l Hl'; first [ specialize (Hq _ Hl') | specialize (Hp _ Hl') ]; lia).
  - intros l ->%list_elem_of_singleton. lia.
  - destruct det as [[| |]| |]; try done; lia.
  - intros l Hl'. apply Hq. by right.
  - apply Hq. by left.
  - rewrite <- length_app. by apply last_plotted_lt.
  - intros l [= <-]. lia.
Qed.

Lemma wf_step t σ : wf σ → wf (step t σ).
Proof. intros Hwf. eapply Step_wf; [by apply step_shape | done]. Qed.

Lemma wf_run sched σ : wf σ → wf (run sched σ).
Proof.
  intros Hwf. induction sched as [|t sched IH] using rev_ind; [done|].
  rewrite run_snoc. by apply wf_step.
Qed.

(** Induction over the states the program reaches from [σ0]. *)
Lemma reach_ind (P : System → Prop) σ0 :
  wf σ0 → P σ0 →
  (∀ t σ σ', wf σ → P σ → Step t σ σ' → P σ') →
  ∀ sched, P (run sched σ0).
Proof.
  intros Hwf H0 Hstep sched.
  induction sched as [|t sched IH] using rev_ind; [done|].
  rewrite run_snoc.
  eapply Hstep; [by apply wf_run | exact IH | by apply step_shape, wf_run].
Qed.


End Semantics.

(** * The two slots *)

Section Slots.

Variable imencode : ndarray → list byte.

Lemma for_each_put_run frames : ∀ last items p h,
  length items ≤ 1 →
  ∃ tr, for_each slot_put (frames ++ [last])
          (mkShared (Queue.mk 1 items) p false h)
        = (Done (), mkShared (Queue.mk 1 [last]) p false h, tr).
Proof.
  induction frames as [|f frames IH]; intros last items p h Hlen.
  - simpl. unfold_prog. rewrite slot_put_run by done. eexists; reflexivity.
  - simpl. unfold_prog. rewrite slot_put_run by done.
    destruct (IH last [f] p h) as [tr Htr]; [simpl; lia|].
    unfold_prog. rewrite Htr. eexists; reflexivity.
Qed.

Lemma for_each_publish_run frames : ∀ last a q p h,
  Forall (λ f, f < length h) frames →
  h !! last = Some a →
  ∃ h' tr, for_each slot_publish (frames ++ [last]) (mkShared q p false h)
           = (Done (), mkShared q (Some (length h')) false (h' ++ [a]), tr).
Proof.
  induction frames as [|f frames IH]; intros last a q p h Hfr Hlast.
  - simpl. unfold_prog. rewrite (slot_publish_run _ _ _ _ _ Hlast).
    eexists _, _; reflexivity.
  - apply Forall_cons in Hfr as [Hf Hfr].
    destruct (lookup_lt_is_Some_2 h f Hf) as [b Hb].
    simpl. unfold_prog. rewrite (slot_publish_run _ _ _ _ _ Hb).
    destruct (IH last a q (Some (length h)) (h ++ [b])) as (h' & tr & Htr).
    + eapply Forall_impl; [exact Hfr|]. intros x Hx. simpl in Hx.
      rewrite length_app. simpl. lia.
    + by apply lookup_app_l_Some.
    + unfold_prog. rewrite Htr. eexists _, _; reflexivity.
Qed.

(** C1 (slot overwrite invariant).  After any sequence of writes with no
    read in between, the slot holds the frame written last and nothing
    else: the Latest-Frame Slot holds exactly that frame, which the next
    take returns, and the Published-Frame Slot holds a copy of the last
    frame published, which the next peek encodes. *)
Theorem slot_overwrite_invariant (s : Shared) (frames : list loc)
    (last : loc) (a : ndarray) :
  Queue.maxsize (frame_queue s) = 1 →
  length (Queue.items (frame_queue s)) ≤ 1 →
  lock s = false →
  Forall (λ f, f < length (heap s)) frames →
  heap s !! last = Some a →
  (∃ s1 tr1 s2 tr2,
      for_each slot_put (frames ++ [last]) s = (Done (), s1, tr1)
      ∧ Queue.items (frame_queue s1) = [last]
      ∧ slot_take_if_present s1 = (Done (Some last), s2, tr2)
      ∧ Queue.items (frame_queue s2) = [])
  ∧ (∃ s1 tr1 p tr2,
      for_each slot_publish (frames ++ [last]) s = (Done (), s1, tr1)
      ∧ processed_frame s1 = Some p
      ∧ heap s1 !! p = Some a
      ∧ slot_peek imencode s1 = (Done (Some (imencode a)), s1, tr2)).
Proof.
  destruct s as [[m items] p lk h]; simpl.
  intros -> Hlen -> Hfr Hlast. split.
  - destruct (for_each_put_run frames last items p h Hlen) as [tr Htr].
    eexists _, _, _, _. split; [exact Htr|]. split; [done|].
    rewrite slot_take_run_full. done.
  - destruct (for_each_publish_run frames last a (Queue.mk 1 items) p h Hfr Hlast)
      as (h' & tr & Htr).
    assert (Hp : (h' ++ [a]) !! length h' = Some a) by apply list_lookup_middle, eq_refl.
    eexists _, _, _, _. split; [exact Htr|]. split; [done|]. split; [exact Hp|].
    apply slot_peek_run_some, Hp.
Qed.

(** C3 (non-destructive peek).  With a frame published and no publish in
    between, any number of peeks give the same encoded frame, read from
    the same stored array, and leave the shared state as it was. *)
Theorem non_destructive_peek (s : Shared) (p : loc) (a : ndarray) (n : nat) :
  lock s = false →
  processed_frame s = Some p →
  heap s !! p = Some a →
  times n (slot_peek imencode) s
  = (Done (replicate n (Some (imencode a))), s,
     concat (replicate n [LockAcquire; Encode p; LockRelease])).
Proof.
  destruct s as [q p0 lk h]; simpl. intros -> -> Ha.
  induction n as [|n IH]; [reflexivity|].
  simpl. unfold_prog. rewrite (slot_peek_run_some _ _ _ _ _ Ha).
  unfold_prog. rewrite IH. simpl. rewrite app_nil_r. reflexivity.
Qed.

End Slots.

(** * Logs *)

Section Logs.

Implicit Types (t : tid) (tr : list event) (lg : list (tid * event)).

Lemma thread_trace_app t lg1 lg2 :
  thread_trace t (lg1 ++ lg2) = thread_trace t lg1 ++ thread_trace t lg2.
Proof. apply omap_app. Qed.

Lemma thread_trace_tag_same t tr : thread_trace t (tag t tr) = tr.
Proof.
  induction tr as [|e tr IH]; [done|].
  simpl. unfold thread_trace in *. simpl.
  destruct (decide (t = t)); [|done]. simpl. by rewrite IH.
Qed.

Lemma thread_trace_tag_other t t' tr : t' ≠ t → thread_trace t (tag t' tr) = [].
Proof.
  intros Hne. induction tr as [|e tr IH]; [done|].
  simpl. unfold thread_trace in *. simpl.
  destruct (decide (t' = t)); [done|]. exact IH.
Qed.

Lemma thread_trace_snoc t t' lg tr :
  thread_trace t (lg ++ tag t' tr)
  = thread_trace t lg ++ (if decide (t' = t) then tr else []).
Proof.
  rewrite thread_trace_app. destruct (decide (t' = t)) as [->|Hne].
  - by rewrite thread_trace_tag_same.
  - by rewrite thread_trace_tag_other.
Qed.

Lemma map_snd_tag t tr : map snd (tag t tr) = tr.
Proof. induction tr as [|e tr IH]; [done|]. simpl. by rewrite IH. Qed.

Lemma got_app tr1 tr2 : got (tr1 ++ tr2) = got tr1 ++ got tr2.
Proof. apply omap_app. Qed.

Lemma got_gets items : got (map QueueGet items) = items.
Proof. induction items as [|x l IH]; [done|]. simpl. by rewrite IH. Qed.

Lemma got_plots ls : got (map Plot ls) = [].
Proof. induction ls as [|x l IH]; [done|]. exact IH. Qed.

(** What one thread removed is part of what was removed at all. *)
Lemma got_thread_sublist t lg :
  got (thread_trace t lg) `sublist_of` got (map snd lg).
Proof.
  induction lg as [|[t' e] lg IH]; [done|].
  unfold thread_trace in *. simpl.
  destruct (decide (t' = t)); simpl.
  - destruct e; simpl; try exact IH. by apply sublist_skip.
  - destruct e; simpl; try exact IH. by apply sublist_cons.
Qed.

Lemma lock_after_app tr1 : ∀ held tr2,
  lock_after held (tr1 ++ tr2) = lock_after (lock_after held tr1) tr2.
Proof. induction tr1 as [|e tr1 IH]; intros held tr2; [done|]. destruct e; apply IH. Qed.

Lemma under_lock_app tr1 : ∀ held tr2,
  under_lock held (tr1 ++ tr2)
  = under_lock held tr1 ++ under_lock (lock_after held tr1) tr2.
Proof.
  induction tr1 as [|e tr1 IH]; intros held tr2; [done|].
  destruct e, held; simpl; rewrite ?IH; reflexivity.
Qed.

Lemma outside_lock_app tr1 : ∀ held tr2,
  outside_lock held (tr1 ++ tr2)
  = outside_lock held tr1 ++ outside_lock (lock_after held tr1) tr2.
Proof.
  induction tr1 as [|e tr1 IH]; intros held tr2; [done|].
  destruct e, held; simpl; rewrite ?IH; reflexivity.
Qed.

Lemma disciplined_app tr1 tr2 :
  disciplined tr1 = true → disciplined tr2 = true →
  disciplined (tr1 ++ tr2) = true.
Proof.
  unfold disciplined. intros H1 H2.
  apply andb_prop in H1 as [H1 H1c]. apply andb_prop in H1 as [H1a H1b].
  apply andb_prop in H2 as [H2 H2c]. apply andb_prop in H2 as [H2a H2b].
  apply negb_true_iff in H1a.
  rewrite lock_after_app, under_lock_app, outside_lock_app, H1a.
  rewrite !forallb_app, H1b, H1c, H2a, H2b, H2c. reflexivity.
Qed.

Lemma disciplined_plots ls tr :
  disciplined (map Plot ls ++ tr) = disciplined tr.
Proof. induction ls as [|x l IH]; [done|]. exact IH. Qed.

End Logs.

(** * Reachable states *)

Section Reachable.

Variable camera : nat → option (list ndarray).
Variable model : ndarray → option (list ndarray).
Variable imencode : ndarray → list byte.

Local Abbreviation step := (sys_step camera model imencode).
Local Abbreviation run := (run camera model imencode).
Local Abbreviation Step := (Step camera model imencode).

Lemma log_snoc_got lg t tr :
  got (map snd (lg ++ tag t tr)) = got (map snd lg) ++ got tr.
Proof. by rewrite map_app, map_snd_tag, got_app. Qed.

Lemma Forall_lt_grow (h h' : list ndarray) (ls : list loc) :
  Forall (λ l, l < length h) ls → Forall (λ l, l < length (h ++ h')) ls.
Proof.
  intros H. eapply Forall_impl; [exact H|]. intros x Hx. simpl in Hx.
  rewrite length_app. lia.
Qed.

(** Every frame leaves the queue at most once. *)
Lemma removed_once sched :
  let σ := run sched initial in
  NoDup (got (map snd (log σ)) ++ Queue.items (frame_queue (shared σ)))
  ∧ Forall (λ l, l < length (heap (shared σ))) (got (map snd (log σ))).
Proof.
  apply (reach_ind camera model imencode (λ σ,
    NoDup (got (map snd (log σ)) ++ Queue.items (frame_queue (shared σ)))
    ∧ Forall (λ l, l < length (heap (shared σ))) (got (map snd (log σ))))).
  - apply wf_initial.
  - simpl. split; constructor.
  - intros t σ σ' [Hm Hs Hl Hq Hp Hc Hd] [Hnd Hall] HS.
    destruct HS; proj_simpl; rewrite ?log_snoc_got; simpl got;
      rewrite ?got_app, ?got_gets, ?got_plots, ?app_nil_r; try (split; assumption).
    + split.
      * apply NoDup_app. split; [done|]. split; [|apply NoDup_singleton].
        intros y Hy ->%list_elem_of_singleton.
        apply elem_of_app in Hy as [Hy|Hy].
        -- rewrite Forall_forall in Hall. specialize (Hall _ Hy). lia.
        -- specialize (Hq _ Hy). lia.
      * apply Forall_app. split; [by apply Forall_lt_grow|].
        apply Forall_forall. intros y Hy. specialize (Hq _ Hy).
        rewrite length_app. lia.
    + rewrite app_nil_r in Hnd. by split.
    + split; [by rewrite <- app_assoc|].
      apply Forall_app. split; [done|]. apply Forall_singleton, Hq. by left.
    + split; [done|]. by apply Forall_lt_grow.
    + split; [done|]. by apply Forall_lt_grow.
Qed.

(** While it reads, the capture thread has constructed one capture more
    than the number of the one it reads from. *)
Lemma capture_counts sched :
  let σ := run sched initial in
  ∀ k pend r n, capture σ = Running (mkCap (AtRead k pend) r n) → n = S k.
Proof.
  apply (reach_ind camera model imencode (λ σ,
    ∀ k pend r n, capture σ = Running (mkCap (AtRead k pend) r n) → n = S k)).
  - apply wf_initial.
  - simpl. intros k pend r n [=].
  - intros t σ σ' _ IH HS.
    destruct HS; proj_simpl; try exact IH; intros k' pend' r' n' [=]; subst;
      try done; eapply IH; reflexivity.
Qed.

(** Before the first publish no client has been sent anything. *)
Lemma silent_until_published sched :
  let σ := run sched initial in
  processed_frame (shared σ) = None →
  sent σ = [] ∧ Forall (λ te, is_yield te.2 = false) (log σ).
Proof.
  apply (reach_ind camera model imencode (λ σ,
    processed_frame (shared σ) = None →
    sent σ = [] ∧ Forall (λ te, is_yield te.2 = false) (log σ))).
  - apply wf_initial.
  - simpl. intros _. split; [done|constructor].
  - intros t σ σ' _ IH HS.
    destruct HS; proj_simpl; try exact IH; try done;
      intros Hnone; destruct (IH Hnone) as [Hsent Hlog];
      (split; [by rewrite ?app_nil_r|]);
      apply Forall_app; (split; [done|]);
      unfold tag; rewrite Forall_fmap;
      repeat first
        [ apply Forall_nil_2
        | apply Forall_cons_2; [reflexivity|]
        | apply Forall_app_2
        | rewrite Forall_fmap; apply Forall_true; intros ?; reflexivity ].
Qed.

(** Each thread keeps the lock discipline. *)
Lemma lock_discipline sched t :
  disciplined (thread_trace t (log (run sched initial))) = true.
Proof.
  apply (reach_ind camera model imencode (λ σ,
    disciplined (thread_trace t (log σ)) = true)).
  - apply wf_initial.
  - reflexivity.
  - intros t' σ σ' Hwf IH HS. destruct Hwf as [_ Hs _ _ _ _ _].
    destruct HS; proj_simpl; try exact IH;
      rewrite thread_trace_snoc; case_decide; rewrite ?app_nil_r; try exact IH;
      apply disciplined_app; try exact IH; try reflexivity.
    + destruct items as [|x [|y items]]; simpl in Hs; try lia; reflexivity.
    + change (disciplined (map Plot (seq (length h) (length results))) = true).
      rewrite <- (app_nil_r (map Plot _)). apply (disciplined_plots _ []).
Qed.

(** Nothing but [processed_frame] refers to the published array. *)
Lemma published_unaliased sched :
  let σ := run sched initial in
  ∀ p, processed_frame (shared σ) = Some p →
       (p ∉ Queue.items (frame_queue (shared σ)))
       ∧ detect σ ≠ Running (AtInfer p)
       ∧ detect σ ≠ Running (AtPublish p).
Proof.
  apply (reach_ind camera model imencode (λ σ,
    ∀ p, processed_frame (shared σ) = Some p →
         (p ∉ Queue.items (frame_queue (shared σ)))
         ∧ detect σ ≠ Running (AtInfer p)
         ∧ detect σ ≠ Running (AtPublish p))).
  - apply wf_initial.
  - simpl. intros p [=].
  - intros t σ σ' [Hm Hs Hl Hq Hp Hc Hd] IH HS.
    destruct HS; proj_simpl; try exact IH; intros q Hq';
      try (destruct (IH _ Hq') as (IH1 & IH2 & IH3)).
    + specialize (Hp _ Hq'). split_and!; [|done|done].
      intros ->%list_elem_of_singleton. lia.
    + split_and!; [intros Hin; apply IH1; by right| |done].
      intros [= ->]. apply IH1. by left.
    + split_and!; done.
    + split_and!; [done|done|].
      intros [= Heq]. specialize (Hp _ Hq').
      unfold last_plotted in Heq. destruct results; simpl in Heq; [congruence|lia].
    + injection Hq' as <-. split_and!; [|done|done].
      intros Hin. specialize (Hq _ Hin). lia.
Qed.

(** Arrays are never written after they are allocated: the store only
    grows. *)
Lemma heap_grows σ0 sched :
  wf σ0 → heap (shared σ0) `prefix_of` heap (shared (run sched σ0)).
Proof.
  intros Hwf.
  apply (reach_ind camera model imencode (λ σ,
    heap (shared σ0) `prefix_of` heap (shared σ))); [done|done|].
  intros t σ σ' _ IH HS.
  destruct HS; proj_simpl; try exact IH; by apply prefix_app_r.
Qed.

(** Once a frame is published, one stays published. *)
Lemma published_stays σ0 sched :
  wf σ0 → is_Some (processed_frame (shared σ0)) →
  is_Some (processed_frame (shared (run sched σ0))).
Proof.
  intros Hwf H0.
  apply (reach_ind camera model imencode (λ σ,
    is_Some (processed_frame (shared σ)))); [done|done|].
  intros t σ σ' _ IH HS.
  destruct HS; proj_simpl; try exact IH; by eexists.
Qed.

(** A dead detector stays dead, does nothing and publishes nothing. *)
Lemma crashed_stays σ0 sched :
  wf σ0 → detect σ0 = Crashed →
  detect (run sched σ0) = Crashed
  ∧ thread_trace Detect (log (run sched σ0)) = thread_trace Detect (log σ0)
  ∧ processed_frame (shared (run sched σ0)) = processed_frame (shared σ0).
Proof.
  intros Hwf H0.
  apply (reach_ind camera model imencode (λ σ,
    detect σ = Crashed
    ∧ thread_trace Detect (log σ) = thread_trace Detect (log σ0)
    ∧ processed_frame (shared σ) = processed_frame (shared σ0))); [done|done|].
  intros t σ σ' _ (IH1 & IH2 & IH3) HS.
  destruct HS; proj_simpl; try done;
    rewrite thread_trace_snoc; case_decide; try done;
    by rewrite app_nil_r.
Qed.

End Reachable.

(** * The pipeline *)

Section Claims.

Variable camera : nat → option (list ndarray).
Variable model : ndarray → option (list ndarray).
Variable imencode : ndarray → list byte.

Local Abbreviation step := (sys_step camera model imencode).
Local Abbreviation run := (run camera model imencode).

Lemma reachable_wf sched : wf (run sched initial).
Proof. apply wf_run, wf_initial. Qed.

(** The shared state of a reachable state, spelled out. *)
Lemma reachable_shared sched :
  ∃ items p h,
    shared (run sched initial) = mkShared (Queue.mk 1 items) p false h
    ∧ length items ≤ 1.
Proof.
  destruct (reachable_wf sched) as [Hm Hs Hl _ _ _ _].
  destruct (shared (run sched initial)) as [[m items] p lk h].
  simpl in *; subst. by eexists _, _, _.
Qed.

(** C2 (at-most-one residency and destructive take).  In every state the
    program reaches the Latest-Frame Slot holds at most one frame; a put
    followed by a take returns the frame put and leaves the slot empty,
    so that a second take finds nothing; and the frames the detector
    has taken are pairwise distinct. *)
Theorem at_most_one_residency (sched : list tid) (frame : loc) :
  let σ := run sched initial in
  length (Queue.items (frame_queue (shared σ))) ≤ 1
  ∧ (∃ s1 tr1 s2 tr2 tr3,
        slot_put frame (shared σ) = (Done (), s1, tr1)
        ∧ slot_take_if_present s1 = (Done (Some frame), s2, tr2)
        ∧ Queue.items (frame_queue s2) = []
        ∧ slot_take_if_present s2 = (Done None, s2, tr3))
  ∧ NoDup (taken (log σ)).
Proof.
  intros σ. subst σ. split_and!.
  - apply reachable_wf.
  - destruct (reachable_shared sched) as (items & p & h & -> & Hlen).
    eexists _, _, _, _, _. split; [by apply slot_put_run|].
    split; [apply slot_take_run_full|]. split; [done|].
    apply slot_take_run_empty.
  - destruct (removed_once camera model imencode sched) as [Hnd _].
    apply NoDup_app in Hnd as [Hnd _].
    eapply sublist_NoDup; [exact Hnd|]. apply got_thread_sublist.
Qed.

Lemma step_open_fails_eq σ r k :
  capture σ = Running (mkCap AtOpen r k) →
  camera k = None →
  step Capture σ
  = mkSystem (shared σ) (Running (mkCap AtOpen (S r) (S k))) (detect σ)
             (sent σ)
             (log σ ++ tag Capture [VideoCapture k; IsOpened false;
                                    PrintRetry (S r); Sleep 2]).
Proof.
  destruct σ as [sh cap det snt lg]; simpl. intros -> Hcam.
  unfold capture_frames_step; simpl. unfold_prog. rewrite Hcam. reflexivity.
Qed.

Lemma step_open_ok_eq σ r k frames :
  capture σ = Running (mkCap AtOpen r k) →
  camera k = Some frames →
  step Capture σ
  = mkSystem (shared σ) (Running (mkCap (AtRead k frames) r (S k)))
             (detect σ) (sent σ)
             (log σ ++ tag Capture [VideoCapture k; IsOpened true;
                                    SetBufferSize 1]).
Proof.
  destruct σ as [sh cap det snt lg]; simpl. intros -> Hcam.
  unfold capture_frames_step; simpl. unfold_prog. rewrite Hcam. reflexivity.
Qed.

Lemma capture_turns_snoc sched t :
  capture_turns (sched ++ [t])
  = capture_turns sched + (if decide (t = Capture) then 1 else 0).
Proof.
  induction sched as [|t' sched IH]; simpl.
  - by destruct t.
  - destruct t'; rewrite IH; reflexivity.
Qed.

Lemma failed_attempts_S r k m :
  failed_attempts r k (S m)
  = failed_attempts r k m
    ++ [VideoCapture (k + m); IsOpened false; PrintRetry (r + S m); Sleep 2].
Proof. unfold failed_attempts. rewrite seq_S, flat_map_app. simpl. reflexivity. Qed.

(** The other threads leave the capture thread and its trace alone. *)
Lemma step_other_capture t σ :
  t ≠ Capture →
  capture (step t σ) = capture σ
  ∧ thread_trace Capture (log (step t σ)) = thread_trace Capture (log σ).
Proof.
  intros Ht. destruct t as [| |n]; [done| |]; simpl.
  - destruct (detect σ) as [pc| |]; [|done|done].
    destruct (process_frames_step model pc (shared σ)) as [[st sh] tr].
    simpl. rewrite thread_trace_snoc. case_decide; [done|].
    by rewrite app_nil_r.
  - destruct (generate_frames_step imencode (shared σ)) as [[st sh] tr].
    simpl. rewrite thread_trace_snoc. case_decide; [done|].
    by rewrite app_nil_r.
Qed.

(** C4 (reconnect convergence).  Let the camera fail to open [N] times
    and then open, and let the scheduler interleave the threads as it
    likes.  As long as the capture thread has had at most [N] turns it is
    unconnected, having logged for each turn one attempt, the message and
    a sleep of 2; once it has had [N + 1] turns it is connected, reading
    from the capture of attempt [N + 1], and that attempt is the last
    thing it logged.  [N] is arbitrary: no number of failures ends the
    loop. *)
Theorem reconnect_convergence (σ : System) (r k N : nat)
    (frames : list ndarray) (sched : list tid) :
  capture σ = Running (mkCap AtOpen r k) →
  (∀ i, i < N → camera (k + i) = None) →
  camera (k + N) = Some frames →
  let m := capture_turns sched in
  let σ' := run sched σ in
  (m ≤ N →
   capture σ' = Running (mkCap AtOpen (r + m) (k + m))
   ∧ thread_trace Capture (log σ')
     = thread_trace Capture (log σ) ++ failed_attempts r k m)
  ∧ (m = S N →
     capture σ' = Running (mkCap (AtRead (k + N) frames) (r + N) (S (k + N)))
     ∧ thread_trace Capture (log σ')
       = thread_trace Capture (log σ) ++ failed_attempts r k N
         ++ [VideoCapture (k + N); IsOpened true; SetBufferSize 1]).
Proof.
  intros Hcap Hfail Hok. simpl.
  induction sched as [|t sched [IHle IHeq]] using rev_ind.
  - simpl. split; [|lia]. intros _.
    rewrite !Nat.add_0_r. unfold failed_attempts. simpl.
    by rewrite app_nil_r.
  - rewrite capture_turns_snoc, run_snoc.
    destruct (decide (t = Capture)) as [->|Hother].
    + split.
      * intros Hm. destruct IHle as [Hc Htr]; [lia|].
        rewrite (step_open_fails_eq _ _ _ Hc) by (apply Hfail; lia).
        cbn [capture log]. rewrite thread_trace_snoc, Htr.
        case_decide; [|done].
        replace (capture_turns sched + 1) with (S (capture_turns sched)) by lia.
        rewrite failed_attempts_S, <- app_assoc, !Nat.add_succ_r.
        done.
      * intros Hm. assert (HN : capture_turns sched = N) by lia.
        destruct IHle as [Hc Htr]; [lia|]. rewrite HN in Hc, Htr.
        rewrite (step_open_ok_eq _ _ _ _ Hc Hok).
        cbn [capture log]. rewrite thread_trace_snoc, Htr.
        case_decide; [|done]. by rewrite <- app_assoc.
    + rewrite Nat.add_0_r.
      destruct (step_other_capture t (run sched σ) Hother) as [-> ->].
      by split.
Qed.

(** C5 (inference failure).  When [model(frame)] raises, the exception
    leaves [process_frames]: the detector thread is dead from that step
    on, having logged the call and nothing after it; whatever the other
    threads go on to do, it takes no further step and the published
    frame is never replaced. *)
Theorem inference_failure_terminates_detection (sched : list tid)
    (frame : loc) (a : ndarray) :
  let σ := run sched initial in
  detect σ = Running (AtInfer frame) →
  heap (shared σ) !! frame = Some a →
  model a = None →
  step Detect σ
  = mkSystem (shared σ) (capture σ) Crashed (sent σ)
             (log σ ++ [(Detect, Infer frame)])
  ∧ ∀ sched',
      let σ' := run sched' (step Detect σ) in
      detect σ' = Crashed
      ∧ thread_trace Detect (log σ')
        = thread_trace Detect (log σ) ++ [Infer frame]
      ∧ processed_frame (shared σ') = processed_frame (shared σ).
Proof.
  intros σ Hdet Ha Hmod.
  assert (Hwf : wf σ) by apply reachable_wf. clearbody σ.
  assert (Hstep : step Detect σ
                  = mkSystem (shared σ) (capture σ) Crashed (sent σ)
                             (log σ ++ [(Detect, Infer frame)])).
  { destruct σ as [sh cap det snt lg]; simpl in *. subst det. simpl.
    unfold load. unfold_prog. rewrite Ha. simpl. rewrite Hmod. reflexivity. }
  split; [exact Hstep|]. intros sched' σ'. subst σ'.
  destruct (crashed_stays camera model imencode (step Detect σ) sched')
    as (H1 & H2 & H3).
  - by apply wf_step.
  - by rewrite Hstep.
  - rewrite H1, H2, H3, Hstep. cbn [log shared].
    change [(Detect, Infer frame)] with (tag Detect [Infer frame]).
    rewrite thread_trace_snoc. by case_decide.
Qed.

(** C6 (read failure).  When [cap.read()] fails, the capture thread logs
    the warning, releases the capture it was reading from and is back at
    line 28; its next step constructs a new capture, with the next
    number, and from there it either reads from that one or tries
    again.  The thread is running in every state that follows. *)
Theorem read_failure_reconnects (sched : list tid) (k r n : nat) :
  let σ := run sched initial in
  capture σ = Running (mkCap (AtRead k []) r n) →
  step Capture σ
  = mkSystem (shared σ) (Running (mkCap AtOpen r (S k))) (detect σ) (sent σ)
             (log σ ++ tag Capture [Read None; PrintReadWarning;
                                    CapRelease k])
  ∧ (∃ c tr,
        step Capture (step Capture σ)
        = mkSystem (shared σ) (Running c) (detect σ) (sent σ)
                   (log (step Capture σ)
                    ++ (Capture, VideoCapture (S k)) :: tag Capture tr)
        ∧ (cap_at c = AtOpen ∨ ∃ frames, cap_at c = AtRead (S k) frames))
  ∧ ∀ sched', ∃ c, capture (run sched' (step Capture σ)) = Running c.
Proof.
  intros σ Hcap.
  assert (Hn : n = S k) by (eapply (capture_counts camera model imencode); exact Hcap).
  assert (Hwf : wf σ) by apply reachable_wf. clearbody σ. subst n.
  assert (Hstep : step Capture σ
    = mkSystem (shared σ) (Running (mkCap AtOpen r (S k))) (detect σ) (sent σ)
               (log σ ++ tag Capture [Read None; PrintReadWarning;
                                      CapRelease k])).
  { destruct σ as [sh cap det snt lg]; simpl in *. subst cap. reflexivity. }
  split; [exact Hstep|]. split.
  - destruct (camera (S k)) as [frames|] eqn:Hcam.
    + erewrite (step_open_ok_eq (step Capture σ));
        [|rewrite Hstep; reflexivity|exact Hcam].
      eexists _, [_; _]. split; [rewrite Hstep; reflexivity|].
      right. by eexists.
    + erewrite (step_open_fails_eq (step Capture σ));
        [|rewrite Hstep; reflexivity|exact Hcam].
      eexists _, [_; _; _]. split; [rewrite Hstep; reflexivity|].
      by left.
  - intros sched'. apply wf_capture, wf_run, wf_step, Hwf.
Qed.

Lemma generate_none_run n m : ∀ σ q h,
  shared σ = mkShared q None false h →
  run (replicate m (Client n)) σ
  = mkSystem (shared σ) (capture σ) (detect σ) (sent σ)
             (log σ ++ tag (Client n)
                (concat (replicate m [LockAcquire; LockRelease]))).
Proof.
  induction m as [|m IH]; intros σ q h Hsh.
  - simpl. rewrite app_nil_r. by destruct σ.
  - change (run (replicate (S m) (Client n)) σ)
      with (run (replicate m (Client n)) (step (Client n) σ)).
    rewrite (IH (step (Client n) σ) q h).
    + destruct σ as [sh cap det snt lg]; simpl in *; subst sh. simpl.
      rewrite app_nil_r, <- !app_assoc. reflexivity.
    + destruct σ as [sh cap det snt lg]; simpl in *; subst sh. reflexivity.
Qed.

(** C7 (nothing published, nothing streamed).  As long as no frame has
    been published, no client has been sent a chunk and no chunk was
    ever yielded; a turn of the generator's loop finds nothing, says so
    without an error and leaves the state as it was, however often it is
    repeated. *)
Theorem no_frame_no_chunks (sched : list tid) :
  let σ := run sched initial in
  processed_frame (shared σ) = None →
  sent σ = []
  ∧ (∀ t chunk, (t, Yield chunk) ∉ log σ)
  ∧ generate_frames_step imencode (shared σ)
    = (Done None, shared σ, [LockAcquire; LockRelease])
  ∧ ∀ n m,
      run (replicate m (Client n)) σ
      = mkSystem (shared σ) (capture σ) (detect σ) []
                 (log σ ++ tag (Client n)
                    (concat (replicate m [LockAcquire; LockRelease]))).
Proof.
  intros σ Hnone.
  destruct (silent_until_published camera model imencode sched Hnone)
    as [Hsent Hlog].
  destruct (reachable_shared sched) as (items & p & h & Hsh & _).
  fold σ in Hsent, Hlog, Hsh. clearbody σ.
  rewrite Hsh in Hnone. simpl in Hnone. subst p.
  split_and!.
  - exact Hsent.
  - intros t chunk Hin. rewrite Forall_forall in Hlog.
    specialize (Hlog _ Hin). discriminate Hlog.
  - rewrite Hsh. reflexivity.
  - intros n m. rewrite <- Hsent. eapply generate_none_run. exact Hsh.
Qed.

(** C8 (no blocking under the lock).  In every state the program
    reaches, the lock is free and no thread waits.  A take from the
    empty slot returns at once with nothing, the queue's [get] not
    having been called; a take from a full slot returns its frame.  In
    a put, lines 46-47 leave the queue empty, so that the [put] of line
    48 goes through. *)
Theorem slot_operations_never_block (sched : list tid) (frame : loc) :
  let σ := run sched initial in
  let s := shared σ in
  lock s = false
  ∧ capture σ ≠ Hung
  ∧ detect σ ≠ Hung
  ∧ (Queue.items (frame_queue s) = [] →
     slot_take_if_present s
     = (Done None, s, [LockAcquire; QueueEmpty true; LockRelease]))
  ∧ (∀ x, Queue.items (frame_queue s) = [x] →
          ∃ s', slot_take_if_present s
                = (Done (Some x), s',
                   [LockAcquire; QueueEmpty false; QueueGet x; LockRelease]))
  ∧ (∃ s1 tr1 s2,
        discard_old (set_lock true s) = (Done (), s1, tr1)
        ∧ Queue.items (frame_queue s1) = []
        ∧ queue_put frame s1 = (Done (), s2, [QueuePut frame])
        ∧ slot_put frame s
          = (Done (), set_lock false s2,
             LockAcquire :: tr1 ++ [QueuePut frame; LockRelease])).
Proof.
  intros σ s. subst s.
  destruct (reachable_wf sched) as [_ _ Hl _ _ [c Hc] Hd].
  destruct (reachable_shared sched) as (items & p & h & Hsh & Hlen).
  fold σ in Hl, Hc, Hd, Hsh. clearbody σ.
  rewrite Hsh. simpl. split_and!.
  - done.
  - by rewrite Hc.
  - intros Hh. by rewrite Hh in Hd.
  - intros ->. reflexivity.
  - intros x ->. eexists. reflexivity.
  - destruct items as [|x [|y items]]; simpl in Hlen; try lia.
    + eexists _, _, _. split_and!; reflexivity.
    + eexists _, _, _. split_and!; reflexivity.
Qed.

(** C9, as the code has it (lock scope).  Every thread leaves each
    locked block with the lock released.  What it does while it holds
    the lock is slot access or, in [generate_frames], the JPEG encoding
    of the published frame, which is never done without the lock;
    inference, plotting and yielding are never done under it. *)
Theorem lock_scope (sched : list tid) (t : tid) :
  let tr := thread_trace t (log (run sched initial)) in
  lock_after false tr = false
  ∧ (∀ e, e ∈ under_lock false tr →
          is_slot_access e = true ∨ ∃ frame, e = Encode frame)
  ∧ (∀ frame, Infer frame ∉ under_lock false tr)
  ∧ (∀ frame, Plot frame ∉ under_lock false tr)
  ∧ (∀ chunk, Yield chunk ∉ under_lock false tr)
  ∧ (∀ frame, Encode frame ∉ outside_lock false tr).
Proof.
  intros tr. subst tr.
  pose proof (lock_discipline camera model imencode sched t) as Hd.
  unfold disciplined in Hd.
  apply andb_prop in Hd as [Hd Hout]. apply andb_prop in Hd as [Hrel Hin].
  apply negb_true_iff in Hrel.
  rewrite forallb_forall in Hin. rewrite forallb_forall in Hout.
  assert (Hunder : ∀ e,
    e ∈ under_lock false (thread_trace t (log (run sched initial))) →
    is_slot_access e || is_encode e = true).
  { intros e He. apply Hin. by apply list_elem_of_In. }
  split_and!.
  - exact Hrel.
  - intros e He. specialize (Hunder e He).
    destruct e; simpl in Hunder; try discriminate; eauto.
  - intros frame He. by specialize (Hunder _ He).
  - intros frame He. by specialize (Hunder _ He).
  - intros chunk He. by specialize (Hunder _ He).
  - intros frame He. apply list_elem_of_In in He.
    by specialize (Hout _ He).
Qed.

(** C10 (published slot: monotone and independent).  Nothing is
    published at the start.  A published frame is an array in the store
    that neither the queue nor the detector refers to; whatever happens
    next, that array keeps its contents and a frame is still published,
    which a peek finds and encodes.  Publishing stores a new array with
    the contents of the detector's frame, so that writing to the
    detector's frame afterwards does not change what is published. *)
Theorem published_monotone_independent (sched sched' : list tid) :
  let σ := run sched initial in
  let σ' := run sched' σ in
  processed_frame (shared initial) = None
  ∧ (∀ p, processed_frame (shared σ) = Some p →
       ∃ a, heap (shared σ) !! p = Some a
            ∧ heap (shared σ') !! p = Some a
            ∧ (p ∉ Queue.items (frame_queue (shared σ)))
            ∧ detect σ ≠ Running (AtInfer p)
            ∧ detect σ ≠ Running (AtPublish p)
            ∧ ∃ p' a',
                processed_frame (shared σ') = Some p'
                ∧ heap (shared σ') !! p' = Some a'
                ∧ slot_peek imencode (shared σ')
                  = (Done (Some (imencode a')), shared σ',
                     [LockAcquire; Encode p'; LockRelease]))
  ∧ (∀ w, detect σ = Running (AtPublish w) →
       ∃ a, heap (shared σ) !! w = Some a
            ∧ shared (step Detect σ)
              = mkShared (frame_queue (shared σ))
                         (Some (length (heap (shared σ)))) false
                         (heap (shared σ) ++ [a])
            ∧ length (heap (shared σ)) ≠ w
            ∧ ∀ b, <[w := b]> (heap (shared σ) ++ [a])
                     !! length (heap (shared σ)) = Some a).
Proof.
  intros σ σ'. split_and!.
  - reflexivity.
  - intros p Hp.
    assert (Hwf : wf σ) by apply reachable_wf.
    assert (Hwf' : wf σ') by (subst σ'; by apply wf_run).
    destruct (lookup_lt_is_Some_2 _ _ (wf_published _ Hwf _ Hp)) as [a Ha].
    destruct (published_unaliased camera model imencode sched p Hp)
      as (Hq & Hi & Hpub).
    exists a. split_and!; try done.
    + eapply prefix_lookup_Some; [exact Ha|].
      subst σ'. by apply heap_grows.
    + destruct (published_stays camera model imencode σ sched' Hwf)
        as [p' Hp']; [by rewrite Hp|]. fold σ' in Hp'.
      destruct (lookup_lt_is_Some_2 _ _ (wf_published _ Hwf' _ Hp'))
        as [a' Ha'].
      exists p', a'. split_and!; try done.
      destruct Hwf' as [_ _ Hl _ _ _ _].
      destruct (shared σ') as [q pf lk h]. simpl in *. subst.
      by apply slot_peek_run_some.
  - intros w Hw.
    assert (Hwf : wf σ) by apply reachable_wf.
    destruct (reachable_shared sched) as (items & p & h & Hsh & _).
    fold σ in Hsh. clearbody σ. clear σ'.
    pose proof (wf_detect _ Hwf) as Hd. rewrite Hw, Hsh in Hd. simpl in Hd.
    destruct (lookup_lt_is_Some_2 _ _ Hd) as [a Ha].
    exists a. rewrite Hsh. simpl. split_and!.
    + exact Ha.
    + destruct σ as [sh cap det snt lg]; simpl in *. subst sh det. simpl.
      unfold_prog. rewrite (slot_publish_run _ _ _ _ _ Ha). reflexivity.
    + lia.
    + intros b. rewrite list_lookup_insert_ne by lia.
      by apply list_lookup_middle.
Qed.

End Claims.

(** * The properties on a run *)

(** A store of two arrays, nothing queued, nothing published. *)
Lemma slot_overwrite_invariant_witness :
  let s := mkShared (Queue.new 1) None false [[x01]; [x02]] in
  (∃ s1 tr1 s2 tr2,
      for_each slot_put ([0; 0] ++ [1]) s = (Done (), s1, tr1)
      ∧ Queue.items (frame_queue s1) = [1]
      ∧ slot_take_if_present s1 = (Done (Some 1), s2, tr2)
      ∧ Queue.items (frame_queue s2) = [])
  ∧ (∃ s1 tr1 p tr2,
      for_each slot_publish ([0; 0] ++ [1]) s = (Done (), s1, tr1)
      ∧ processed_frame s1 = Some p
      ∧ heap s1 !! p = Some [x02]
      ∧ slot_peek Demo.imencode s1
        = (Done (Some (Demo.imencode [x02])), s1, tr2)).
Proof.
  apply (slot_overwrite_invariant Demo.imencode
           (mkShared (Queue.new 1) None false [[x01]; [x02]]) [0; 0] 1 [x02]).
  - reflexivity.
  - simpl. lia.
  - reflexivity.
  - repeat constructor.
  - reflexivity.
Defined.

(** Three peeks at the second array of the store. *)
Lemma non_destructive_peek_witness :
  let s := mkShared (Queue.new 1) (Some 1) false [[x01]; [x02]] in
  times 3 (slot_peek Demo.imencode) s
  = (Done [Some [xd8; x02]; Some [xd8; x02]; Some [xd8; x02]], s,
     [LockAcquire; Encode 1; LockRelease;
      LockAcquire; Encode 1; LockRelease;
      LockAcquire; Encode 1; LockRelease]).
Proof.
  apply (non_destructive_peek Demo.imencode
           (mkShared (Queue.new 1) (Some 1) false [[x01]; [x02]]) 1 [x02] 3);
    reflexivity.
Defined.

(** The demo camera opens at the third attempt; the detector and a
    client take turns meanwhile. *)
Lemma reconnect_convergence_witness :
  let sched := [Capture; Detect; Capture; Client 0; Capture; Detect] in
  capture_turns sched = 3
  ∧ capture (Demo.run sched initial)
    = Running (mkCap (AtRead 2 [[x01]; [x02]]) 2 3)
  ∧ thread_trace Capture (log (Demo.run sched initial))
    = [VideoCapture 0; IsOpened false; PrintRetry 1; Sleep 2;
       VideoCapture 1; IsOpened false; PrintRetry 2; Sleep 2;
       VideoCapture 2; IsOpened true; SetBufferSize 1].
Proof.
  split; [reflexivity|].
  apply (reconnect_convergence Demo.camera Demo.model Demo.imencode
           initial 0 0 2 [[x01]; [x02]]
           [Capture; Detect; Capture; Client 0; Capture; Detect]).
  - reflexivity.
  - intros i Hi. destruct i as [|[|i]]; [reflexivity|reflexivity|lia].
  - reflexivity.
  - reflexivity.
Defined.

(** In the demo run the detector holds the frame the demo model raises
    on. *)
Lemma inference_failure_terminates_detection_witness :
  let σ := Demo.run Demo.sched_published initial in
  Demo.step Detect σ
  = mkSystem (shared σ) (capture σ) Crashed (sent σ)
             (log σ ++ [(Detect, Infer 3)])
  ∧ ∀ sched',
      let σ' := Demo.run sched' (Demo.step Detect σ) in
      detect σ' = Crashed
      ∧ thread_trace Detect (log σ') = thread_trace Detect (log σ) ++ [Infer 3]
      ∧ processed_frame (shared σ') = processed_frame (shared σ).
Proof.
  apply (inference_failure_terminates_detection Demo.camera Demo.model
           Demo.imencode Demo.sched_published 3 [x02]);
    reflexivity.
Defined.

(** In the demo run the camera has delivered its two frames. *)
Lemma read_failure_reconnects_witness :
  let σ := Demo.run Demo.sched_published initial in
  Demo.step Capture σ
  = mkSystem (shared σ) (Running (mkCap AtOpen 2 3)) (detect σ) (sent σ)
             (log σ ++ tag Capture [Read None; PrintReadWarning; CapRelease 2])
  ∧ (∃ c tr,
        Demo.step Capture (Demo.step Capture σ)
        = mkSystem (shared σ) (Running c) (detect σ) (sent σ)
                   (log (Demo.step Capture σ)
                    ++ (Capture, VideoCapture 3) :: tag Capture tr)
        ∧ (cap_at c = AtOpen ∨ ∃ frames, cap_at c = AtRead 3 frames))
  ∧ ∀ sched', ∃ c, capture (Demo.run sched' (Demo.step Capture σ)) = Running c.
Proof.
  apply (read_failure_reconnects Demo.camera Demo.model Demo.imencode
           Demo.sched_published 2 2 3).
  reflexivity.
Defined.

(** Clients poll while the camera is still being opened. *)
Lemma no_frame_no_chunks_witness :
  let σ := Demo.run [Capture; Client 0; Capture; Detect; Client 1] initial in
  sent σ = []
  ∧ (∀ t chunk, (t, Yield chunk) ∉ log σ)
  ∧ generate_frames_step Demo.imencode (shared σ)
    = (Done None, shared σ, [LockAcquire; LockRelease])
  ∧ ∀ n m,
      Demo.run (replicate m (Client n)) σ
      = mkSystem (shared σ) (capture σ) (detect σ) []
                 (log σ ++ tag (Client n)
                    (concat (replicate m [LockAcquire; LockRelease]))).
Proof.
  apply (no_frame_no_chunks Demo.camera Demo.model Demo.imencode
           [Capture; Client 0; Capture; Detect; Client 1]).
  reflexivity.
Defined.

(** C9, as stated, fails: a client that is served the published frame of
    the demo run encodes it between acquiring and releasing the lock, and
    encoding is no slot access. *)
Lemma encode_under_lock_counterexample :
  ¬ only_slot_access_locked
      (log (Demo.run (Demo.sched_published ++ [Client 0]) initial)).
Proof.
  intros Hclaim.
  specialize (Hclaim (Client 0) (Encode 2)).
  assert (Hin : Encode 2 ∈ under_lock false
                  (thread_trace (Client 0)
                     (log (Demo.run (Demo.sched_published ++ [Client 0])
                                    initial)))).
  { vm_compute. left. }
  specialize (Hclaim Hin). discriminate Hclaim.
Qed.

(** * Further properties of the pipeline *)

Section Coverage.

Variable camera : nat → option (list ndarray).
Variable model : ndarray → option (list ndarray).
Variable imencode : ndarray → list byte.

Local Abbreviation step := (sys_step camera model imencode).
Local Abbreviation run := (run camera model imencode).

Lemma log_snoc_puts lg t tr :
  puts (map snd (lg ++ tag t tr)) = puts (map snd lg) ++ puts tr.
Proof. rewrite map_app, map_snd_tag. apply omap_app. Qed.

Lemma puts_gets items : puts (map QueueGet items) = [].
Proof. induction items as [|x l IH]; [done|]. exact IH. Qed.

Lemma puts_plots ls : puts (map Plot ls) = [].
Proof. induction ls as [|x l IH]; [done|]. exact IH. Qed.

(** Every frame put into the queue has left it or is still in it. *)
Lemma frames_conserved sched :
  let σ := run sched initial in
  got (map snd (log σ)) ++ Queue.items (frame_queue (shared σ))
  = puts (map snd (log σ)).
Proof.
  apply (reach_ind camera model imencode (λ σ,
    got (map snd (log σ)) ++ Queue.items (frame_queue (shared σ))
    = puts (map snd (log σ)))).
  - apply wf_initial.
  - reflexivity.
  - intros t σ σ' _ IH HS.
    destruct HS; proj_simpl; try exact IH;
      rewrite log_snoc_got, log_snoc_puts; simpl got; simpl puts;
      rewrite ?got_app, ?got_gets, ?got_plots, ?app_nil_r; try exact IH.
    + unfold puts. rewrite omap_app. fold (puts (map QueueGet items)).
      rewrite puts_gets. simpl. by rewrite IH.
    + rewrite app_nil_r in IH. exact IH.
    + by rewrite <- app_assoc.
    + fold (puts (map Plot (seq (length h) (length results)))).
      rewrite puts_plots, app_nil_r. exact IH.
Qed.

(** X5 (frames are accounted for).  Under every schedule, the frames
    put into the queue are, in order, the frames that were removed from
    it followed by the frame still in it; no frame was put twice; and the
    frames the detector took are some of the frames put, in the order
    they were put. *)
Theorem frames_accounted (sched : list tid) :
  let σ := run sched initial in
  got (map snd (log σ)) ++ Queue.items (frame_queue (shared σ))
  = puts (map snd (log σ))
  ∧ NoDup (puts (map snd (log σ)))
  ∧ taken (log σ) `sublist_of` puts (map snd (log σ)).
Proof.
  intros σ. subst σ.
  pose proof (frames_conserved sched) as Hcons. simpl in Hcons.
  destruct (removed_once camera model imencode sched) as [Hnd _].
  split_and!.
  - exact Hcons.
  - by rewrite <- Hcons.
  - rewrite <- Hcons. etrans; [apply got_thread_sublist|].
    by apply sublist_inserts_r.
Qed.

(** X6 (the slot holds the newest frame).  Whenever the queue is
    occupied, the frame in it is the one that was put last: a take
    never returns a frame older than another that has been captured. *)
Theorem slot_holds_latest (sched : list tid) (x : loc) :
  let σ := run sched initial in
  Queue.items (frame_queue (shared σ)) = [x] →
  last (puts (map snd (log σ))) = Some x
  ∧ ∃ s', slot_take_if_present (shared σ)
          = (Done (Some x), s',
             [LockAcquire; QueueEmpty false; QueueGet x; LockRelease]).
Proof.
  intros σ Hx. subst σ.
  pose proof (frames_conserved sched) as Hcons. simpl in Hcons.
  rewrite Hx in Hcons. split.
  - rewrite <- Hcons. apply last_snoc.
  - destruct (reachable_shared camera model imencode sched)
      as (items & p & h & Hsh & _).
    rewrite Hsh in Hx |- *. simpl in Hx. subst items.
    eexists. reflexivity.
Qed.

Lemma inferred_app tr1 tr2 : inferred (tr1 ++ tr2) = inferred tr1 ++ inferred tr2.
Proof. apply omap_app. Qed.

Lemma inferred_infer_plots frame ls :
  inferred (Infer frame :: map Plot ls) = [frame].
Proof.
  unfold inferred. simpl. f_equal.
  induction ls as [|x l IH]; [done|]. exact IH.
Qed.

Lemma got_infer_plots frame ls : got (Infer frame :: map Plot ls) = [].
Proof. apply (got_plots ls). Qed.

(** X7 (one inference per frame taken).  Under every schedule, the
    frames the detector has passed to the model are, in order, the frames
    it has taken, but for the frame it is holding when it stands between
    the take and the call: no frame is inferred twice or skipped. *)
Theorem taken_inferred_once (sched : list tid) :
  let σ := run sched initial in
  inferred (thread_trace Detect (log σ)) ++ held (detect σ) = taken (log σ).
Proof.
  apply (reach_ind camera model imencode (λ σ,
    inferred (thread_trace Detect (log σ)) ++ held (detect σ)
    = taken (log σ))).
  - apply wf_initial.
  - reflexivity.
  - intros t σ σ' _ IH HS. unfold taken in *.
    destruct HS; proj_simpl; try exact IH;
      rewrite thread_trace_snoc; case_decide; try done;
      rewrite ?app_nil_r; try exact IH;
      rewrite inferred_app, got_app;
      rewrite ?inferred_infer_plots, ?got_infer_plots;
      simpl in *; rewrite ?app_nil_r in *; by rewrite <- ?IH.
Qed.

Lemma opened_S_fails k :
  camera k = None →
  filter (λ k, is_Some (camera k)) (seq 0 (S k))
  = filter (λ k, is_Some (camera k)) (seq 0 k).
Proof.
  intros Hk. rewrite seq_S, filter_app. simpl.
  rewrite filter_cons_False, filter_nil, app_nil_r; [done|].
  rewrite Hk. by intros [? ?].
Qed.

Lemma opened_S_ok k frames :
  camera k = Some frames →
  filter (λ k, is_Some (camera k)) (seq 0 (S k))
  = filter (λ k, is_Some (camera k)) (seq 0 k) ++ [k].
Proof.
  intros Hk. rewrite seq_S, filter_app. simpl.
  rewrite filter_cons_True, filter_nil; [done|].
  rewrite Hk. by eexists.
Qed.

(** What the capture thread has logged, against its two counters. *)
Lemma capture_ledger sched :
  let σ := run sched initial in
  ∀ c, capture σ = Running c →
    let tr := thread_trace Capture (log σ) in
    let opened := filter (λ k, is_Some (camera k)) (seq 0 (attempts c)) in
    constructed tr = seq 0 (attempts c)
    ∧ retry_prints tr = seq 1 (retries c)
    ∧ sleeps tr = replicate (retries c) 2
    ∧ buffer_sizes tr = replicate (length opened) 1
    ∧ retries c + length opened = attempts c
    ∧ released tr ++ reading (Running c) = opened.
Proof.
  apply (reach_ind camera model imencode (λ σ,
    ∀ c, capture σ = Running c →
      let tr := thread_trace Capture (log σ) in
      let opened := filter (λ k, is_Some (camera k)) (seq 0 (attempts c)) in
      constructed tr = seq 0 (attempts c)
      ∧ retry_prints tr = seq 1 (retries c)
      ∧ sleeps tr = replicate (retries c) 2
      ∧ buffer_sizes tr = replicate (length opened) 1
      ∧ retries c + length opened = attempts c
      ∧ released tr ++ reading (Running c) = opened)).
  - apply wf_initial.
  - simpl. intros c [= <-]. simpl. by split_and!.
  - intros t σ σ' _ IH HS.
    destruct HS; proj_simpl; try exact IH;
      intros c Hc; cbv zeta;
      rewrite thread_trace_snoc; case_decide; try done;
      rewrite ?app_nil_r; try (by apply IH);
      injection Hc as <-;
      destruct (IH _ eq_refl) as (H1 & H2 & H3 & H4 & H5 & H6);
      cbn [attempts retries cap_at reading] in *;
      unfold constructed, retry_prints, sleeps, buffer_sizes, released in *;
      rewrite !omap_app, H1, H2, H3, H4.
    + rewrite (opened_S_fails _ H), !seq_S, replicate_S_end.
      rewrite app_nil_r in H6. simpl. rewrite !app_nil_r.
      split_and!; try done. lia.
    + rewrite (opened_S_ok _ _ H), seq_S, length_app.
      rewrite app_nil_r in H6. simpl. rewrite !app_nil_r.
      split_and!; try done.
      * by rewrite Nat.add_1_r, replicate_S_end.
      * lia.
      * by rewrite H6.
    + simpl. rewrite !app_nil_r. by split_and!.
    + destruct items as [|x [|y items]]; simpl in H; try lia;
        simpl; rewrite !app_nil_r; done.
Qed.

(** X3 (retry accounting).  Under every schedule the capture thread has
    constructed the captures 0, 1, ... in order, one per attempt; it has
    printed the retry numbers 1, 2, ..., [retries] and slept 2 after each
    of them and at no other time; and [retries], which is never reset,
    counts the attempts that did not open: with the number of those that
    did it adds up to the number of attempts. *)
Theorem retries_accounted (sched : list tid) :
  let σ := run sched initial in
  let tr := thread_trace Capture (log σ) in
  ∃ c, capture σ = Running c
       ∧ constructed tr = seq 0 (attempts c)
       ∧ retry_prints tr = seq 1 (retries c)
       ∧ sleeps tr = replicate (retries c) 2
       ∧ retries c
         + length (filter (λ k, is_Some (camera k)) (seq 0 (attempts c)))
         = attempts c.
Proof.
  intros σ tr. subst σ tr.
  destruct (wf_capture _ (reachable_wf camera model imencode sched)) as [c Hc].
  destruct (capture_ledger sched c Hc) as (H1 & H2 & H3 & _ & H5 & _).
  exists c. by split_and!.
Qed.

(** X4 (captures are released).  Under every schedule, the captures
    that were released and the one being read from are, in order, the
    captures that opened: each is released once, a capture that did not
    open is never released, and at most one capture is open at a time.
    The buffer size was set to 1 once for each capture that opened. *)
Theorem captures_released (sched : list tid) :
  let σ := run sched initial in
  let tr := thread_trace Capture (log σ) in
  ∃ c, capture σ = Running c
       ∧ released tr ++ reading (capture σ)
         = filter (λ k, is_Some (camera k)) (seq 0 (attempts c))
       ∧ NoDup (released tr ++ reading (capture σ))
       ∧ Forall (λ k, is_Some (camera k)) (released tr)
       ∧ buffer_sizes tr
         = replicate (length (released tr ++ reading (capture σ))) 1.
Proof.
  intros σ tr. subst σ tr.
  destruct (wf_capture _ (reachable_wf camera model imencode sched)) as [c Hc].
  destruct (capture_ledger sched c Hc) as (_ & _ & _ & H4 & _ & H6).
  exists c. rewrite Hc. split_and!; try done.
  - rewrite H6. apply NoDup_filter, NoDup_seq.
  - apply Forall_forall. intros k Hk.
    assert (Hin : k ∈ released (thread_trace Capture
                                  (log (run sched initial)))
                      ++ reading (Running c))
      by (apply elem_of_app; by left).
    rewrite H6 in Hin. by apply list_elem_of_filter in Hin as [? _].
  - by rewrite H6.
Qed.

Lemma published_snoc lg t tr l :
  l ∈ published (thread_trace Detect lg) →
  l ∈ published (thread_trace Detect (lg ++ tag t tr)).
Proof.
  intros Hl. rewrite thread_trace_app. unfold published in *.
  rewrite omap_app. apply elem_of_app. by left.
Qed.

(** What is published, and what was sent, was assigned by the
    detector and is in the store. *)
Lemma sent_published sched :
  let σ := run sched initial in
  (∀ l, processed_frame (shared σ) = Some l →
        l ∈ published (thread_trace Detect (log σ)))
  ∧ (∀ n chunk, (n, chunk) ∈ sent σ →
       ∃ l a, l ∈ published (thread_trace Detect (log σ))
              ∧ heap (shared σ) !! l = Some a
              ∧ chunk = chunk_of (imencode a)).
Proof.
  apply (reach_ind camera model imencode (λ σ,
    (∀ l, processed_frame (shared σ) = Some l →
          l ∈ published (thread_trace Detect (log σ)))
    ∧ (∀ n chunk, (n, chunk) ∈ sent σ →
         ∃ l a, l ∈ published (thread_trace Detect (log σ))
                ∧ heap (shared σ) !! l = Some a
                ∧ chunk = chunk_of (imencode a)))).
  - apply wf_initial.
  - simpl. split; [by intros l [=]|]. intros n chunk Hin. inversion Hin.
  - intros t σ σ' _ [IHp IHs] HS.
    destruct HS; proj_simpl; try (by split); split;
      try (intros l Hl; apply published_snoc; by apply IHp);
      try (intros n' chunk Hin; rewrite ?app_nil_r in Hin;
           destruct (IHs _ _ Hin) as (l & b & Hl & Hb & Hc);
           exists l, b; split_and!;
           [by apply published_snoc | by try apply lookup_app_l_Some | done]).
    + intros l [= <-]. rewrite thread_trace_snoc. case_decide; [|done].
      unfold published. rewrite omap_app. apply elem_of_app. right.
      simpl. by left.
    + intros n' chunk Hin. apply elem_of_app in Hin as [Hin|Hin].
      * destruct (IHs _ _ Hin) as (l & b & Hl & Hb & Hc).
        exists l, b. split_and!; [by apply published_snoc|done|done].
      * apply list_elem_of_singleton in Hin. injection Hin as -> ->.
        exists frame, a. split_and!; [|done|done].
        apply published_snoc. by apply IHp.
Qed.

(** X2 (what a client is sent).  Under every schedule, every chunk a
    client has been sent is the multipart framing of the encoding of an
    array that the detector assigned to [processed_frame] and that is in
    the store: nothing else is ever streamed. *)
Theorem stream_integrity (sched : list tid) (n : nat) (chunk : list byte) :
  let σ := run sched initial in
  (n, chunk) ∈ sent σ →
  ∃ l a, l ∈ published (thread_trace Detect (log σ))
         ∧ heap (shared σ) !! l = Some a
         ∧ chunk = chunk_of (imencode a).
Proof.
  intros σ Hin. subst σ.
  destruct (sent_published sched) as [_ Hs]. exact (Hs n chunk Hin).
Qed.

(** A turn of a client, spelled out. *)
Lemma client_step_eq σ n :
  wf σ →
  ∃ out tr,
    step (Client n) σ
    = mkSystem (shared σ) (capture σ) (detect σ)
               (sent σ ++ map (pair n) out) (log σ ++ tag (Client n) tr)
    ∧ out = match processed_frame (shared σ) with
            | Some frame =>
                match heap (shared σ) !! frame with
                | Some a => [chunk_of (imencode a)]
                | None => []
                end
            | None => []
            end
    ∧ (out = [] ↔ processed_frame (shared σ) = None).
Proof.
  intros [Hm Hs Hl Hq Hp Hc Hd].
  destruct σ as [[[m items] p lk h] cap det snt lg]; simpl in *; subst.
  unfold generate_frames_step. unfold_prog. destruct p as [frame|].
  - destruct (lookup_lt_is_Some_2 h frame (Hp _ eq_refl)) as [a Ha].
    rewrite (slot_peek_run_some _ _ _ _ _ Ha), Ha.
    eexists [_], _. split_and!; [reflexivity|reflexivity|done].
  - rewrite slot_peek_run_none.
    eexists [], _. split_and!; [reflexivity|reflexivity|done].
Qed.

(** X8 (clients do not interfere).  In every state the program
    reaches, a turn of a client changes neither the shared state nor the
    two threads; it sends that client one chunk when a frame is published
    and none otherwise; and a second client served right after is sent
    the same chunk. *)
Theorem clients_do_not_interfere (sched : list tid) (n m : nat) :
  let σ := run sched initial in
  let σ1 := step (Client n) σ in
  let σ2 := step (Client m) σ1 in
  ∃ out,
    shared σ1 = shared σ ∧ capture σ1 = capture σ ∧ detect σ1 = detect σ
    ∧ sent σ1 = sent σ ++ map (pair n) out
    ∧ sent σ2 = sent σ ++ map (pair n) out ++ map (pair m) out
    ∧ length out ≤ 1
    ∧ (out = [] ↔ processed_frame (shared σ) = None).
Proof.
  intros σ σ1 σ2. subst σ1 σ2.
  assert (Hwf : wf σ) by apply (reachable_wf camera model imencode).
  clearbody σ.
  destruct (client_step_eq σ n Hwf) as (out & tr & H1 & Hout & Hnone).
  assert (Hwf1 : wf (step (Client n) σ)) by by apply wf_step.
  destruct (client_step_eq _ m Hwf1) as (out' & tr' & H2 & Hout' & _).
  rewrite H2, Hout'. rewrite H1. cbn [shared capture detect sent log].
  rewrite <- Hout. exists out. split_and!; try done.
  - by rewrite <- app_assoc.
  - rewrite Hout. destruct (processed_frame (shared σ)) as [l|]; [|simpl; lia].
    destruct (heap (shared σ) !! l); simpl; lia.
Qed.

Lemma others_keep_detect t σ : t ≠ Detect → detect (step t σ) = detect σ.
Proof.
  intros Ht. destruct t as [| |n]; [|done|]; simpl.
  - destruct (capture σ) as [c| |]; [|done|done].
    by destruct (capture_frames_step camera c (shared σ)) as [[st sh] tr].
  - by destruct (generate_frames_step imencode (shared σ)) as [[st sh] tr].
Qed.

Lemma run_others_keep_detect sched σ :
  Forall (λ t, t ≠ Detect) sched → detect (run sched σ) = detect σ.
Proof.
  induction sched as [|t sched IH] using rev_ind; [done|].
  intros [Hs Ht]%Forall_app. rewrite Forall_singleton in Ht.
  rewrite run_snoc. rewrite (others_keep_detect _ _ Ht). by apply IH.
Qed.

Lemma last_plotted_lookup (h results : list ndarray) frame a :
  h !! frame = Some a →
  (h ++ results) !! last_plotted h results frame
  = Some (default a (last results)).
Proof.
  intros Ha. unfold last_plotted. destruct results as [|r results].
  - simpl. by rewrite app_nil_r.
  - rewrite lookup_app_r by (simpl; lia).
    rewrite last_lookup.
    replace (length h + length (r :: results) - 1 - length h)
      with (pred (length (r :: results))) by (simpl; lia).
    destruct ((r :: results) !! pred (length (r :: results))) eqn:Hl; [done|].
    apply lookup_ge_None in Hl. simpl in Hl. lia.
Qed.

(** The call of the model and the plotting, spelled out. *)
Lemma infer_step_eq σ frame a results :
  wf σ →
  detect σ = Running (AtInfer frame) →
  heap (shared σ) !! frame = Some a →
  model a = Some results →
  detect (step Detect σ)
  = Running (AtPublish (last_plotted (heap (shared σ)) results frame))
  ∧ heap (shared (step Detect σ)) = heap (shared σ) ++ results.
Proof.
  intros [Hm Hs Hl Hq Hp Hc Hd].
  destruct σ as [[[m items] p lk h] cap det snt lg]; simpl in *; subst.
  intros -> Ha Hmod. simpl. unfold load. unfold_prog. simpl.
  rewrite Ha, Hmod, plot_all_run. by split.
Qed.

(** The publication, spelled out. *)
Lemma publish_step_eq σ frame b :
  wf σ →
  detect σ = Running (AtPublish frame) →
  heap (shared σ) !! frame = Some b →
  detect (step Detect σ) = Running AtTake
  ∧ processed_frame (shared (step Detect σ)) = Some (length (heap (shared σ)))
  ∧ heap (shared (step Detect σ)) = heap (shared σ) ++ [b].
Proof.
  intros [Hm Hs Hl Hq Hp Hc Hd].
  destruct σ as [[[m items] p lk h] cap det snt lg]; simpl in *; subst.
  intros -> Hb. simpl. unfold_prog.
  rewrite (slot_publish_run _ _ _ _ _ Hb). by split_and!.
Qed.

(** X9 (what gets published).  When the model returns its results for
    the frame the detector holds, the array published at the detector's
    next turn, whatever the other threads do in between, is a new array
    with the picture of the last result; when the model returns no
    result, it is a copy of the captured frame, unannotated. *)
Theorem published_is_last_plot (sched sched' : list tid) (frame : loc)
    (a : ndarray) (results : list ndarray) :
  let σ := run sched initial in
  detect σ = Running (AtInfer frame) →
  heap (shared σ) !! frame = Some a →
  model a = Some results →
  Forall (λ t, t ≠ Detect) sched' →
  let σ' := step Detect (run sched' (step Detect σ)) in
  ∃ p, processed_frame (shared σ') = Some p
       ∧ heap (shared σ') !! p = Some (default a (last results))
       ∧ heap (shared σ) !! p = None
       ∧ detect σ' = Running AtTake.
Proof.
  intros σ Hdet Ha Hmod Hothers σ'. subst σ'.
  assert (Hwf : wf σ) by apply (reachable_wf camera model imencode).
  clearbody σ.
  destruct (infer_step_eq σ frame a results Hwf Hdet Ha Hmod) as [Hd1 Hh1].
  assert (Hwf1 : wf (step Detect σ)) by by apply wf_step.
  set (σ2 := run sched' (step Detect σ)).
  assert (Hwf2 : wf σ2) by by apply wf_run.
  assert (Hd2 : detect σ2
                = Running (AtPublish (last_plotted (heap (shared σ))
                                                   results frame))).
  { unfold σ2. by rewrite run_others_keep_detect. }
  pose proof (heap_grows camera model imencode (step Detect σ) sched' Hwf1)
    as Hpre. fold σ2 in Hpre. rewrite Hh1 in Hpre.
  assert (Hb : heap (shared σ2) !! last_plotted (heap (shared σ)) results frame
               = Some (default a (last results))).
  { eapply prefix_lookup_Some; [|exact Hpre]. by apply last_plotted_lookup. }
  destruct (publish_step_eq σ2 _ _ Hwf2 Hd2 Hb) as (Hd3 & Hp3 & Hh3).
  exists (length (heap (shared σ2))). split_and!.
  - exact Hp3.
  - rewrite Hh3. by apply list_lookup_middle.
  - apply lookup_ge_None.
    apply prefix_length in Hpre. rewrite length_app in Hpre. lia.
  - exact Hd3.
Qed.

(** X10 (the stream freezes when the detector dies).  Once the
    detector is dead with a frame published, every chunk any client is
    sent from then on, under every schedule, is the chunk of that same
    frame: capture goes on, but the stream shows a still picture. *)
Theorem stream_freezes_after_crash (sched sched' : list tid) (p : loc)
    (a : ndarray) :
  let σ := run sched initial in
  detect σ = Crashed →
  processed_frame (shared σ) = Some p →
  heap (shared σ) !! p = Some a →
  ∃ more, sent (run sched' σ) = sent σ ++ more
          ∧ Forall (λ nc, nc.2 = chunk_of (imencode a)) more.
Proof.
  intros σ Hdet Hp Ha.
  assert (Hwf : wf σ) by apply (reachable_wf camera model imencode).
  clearbody σ.
  cut (detect (run sched' σ) = Crashed
       ∧ processed_frame (shared (run sched' σ)) = Some p
       ∧ heap (shared (run sched' σ)) !! p = Some a
       ∧ ∃ more, sent (run sched' σ) = sent σ ++ more
                 ∧ Forall (λ nc, nc.2 = chunk_of (imencode a)) more).
  { by intros (_ & _ & _ & H). }
  apply (reach_ind camera model imencode (λ σ',
    detect σ' = Crashed
    ∧ processed_frame (shared σ') = Some p
    ∧ heap (shared σ') !! p = Some a
    ∧ ∃ more, sent σ' = sent σ ++ more
              ∧ Forall (λ nc, nc.2 = chunk_of (imencode a)) more)).
  - exact Hwf.
  - split_and!; try done. exists []. by rewrite app_nil_r.
  - intros t σ1 σ2 _ (H1 & H2 & H3 & more & H4 & H5) HS.
    destruct HS; proj_simpl; try done;
      try (split_and!; try done; try (by apply lookup_app_l_Some);
           exists more; by rewrite ?app_nil_r).
    split_and!; try done.
    injection H2 as ->. rewrite H3 in H. injection H as ->.
    exists (more ++ [(n, chunk_of (imencode a0))]).
    rewrite H4, <- app_assoc. split; [done|].
    apply Forall_app. split; [done|]. by apply Forall_singleton.
Qed.

Lemma published_infer_plots frame ls :
  published (Infer frame :: map Plot ls) = [].
Proof.
  unfold published. simpl. induction ls as [|x l IH]; [done|]. exact IH.
Qed.

Lemma encoded_infer_plots frame ls :
  encoded (Infer frame :: map Plot ls) = [].
Proof.
  unfold encoded. simpl. induction ls as [|x l IH]; [done|]. exact IH.
Qed.

Lemma published_trace_snoc lg t tr :
  published (thread_trace Detect (lg ++ tag t tr))
  = published (thread_trace Detect lg)
    ++ (if decide (t = Detect) then published tr else []).
Proof.
  rewrite thread_trace_snoc. unfold published. rewrite omap_app.
  by case_decide.
Qed.

Lemma encoded_trace_snoc n lg t tr :
  encoded (thread_trace (Client n) (lg ++ tag t tr))
  = encoded (thread_trace (Client n) lg)
    ++ (if decide (t = Client n) then encoded tr else []).
Proof.
  rewrite thread_trace_snoc. unfold encoded. rewrite omap_app.
  by case_decide.
Qed.

(** Arrays are published in the order of their references, the last of
    them being the one published now, and a client encodes them in that
    order. *)
Lemma publication_order sched n :
  let σ := run sched initial in
  let pub := published (thread_trace Detect (log σ)) in
  let enc := encoded (thread_trace (Client n) (log σ)) in
  StronglySorted lt pub
  ∧ (∀ l, processed_frame (shared σ) = Some l → l ∈ pub)
  ∧ (∀ l, l ∈ pub → ∃ p, processed_frame (shared σ) = Some p ∧ l ≤ p)
  ∧ StronglySorted le enc
  ∧ ∀ l, l ∈ enc →
         l ∈ pub ∧ ∃ p, processed_frame (shared σ) = Some p ∧ l ≤ p.
Proof.
  apply (reach_ind camera model imencode (λ σ,
    let pub := published (thread_trace Detect (log σ)) in
    let enc := encoded (thread_trace (Client n) (log σ)) in
    StronglySorted lt pub
    ∧ (∀ l, processed_frame (shared σ) = Some l → l ∈ pub)
    ∧ (∀ l, l ∈ pub → ∃ p, processed_frame (shared σ) = Some p ∧ l ≤ p)
    ∧ StronglySorted le enc
    ∧ ∀ l, l ∈ enc →
           l ∈ pub ∧ ∃ p, processed_frame (shared σ) = Some p ∧ l ≤ p)).
  - apply wf_initial.
  - simpl. split_and!; [constructor|by intros l [=]|intros l Hl; inversion Hl
                        |constructor|intros l Hl; inversion Hl].
  - intros t σ σ' Hwf (Hsp & Hcur & Hle & Hse & Hen) HS. cbv zeta in *.
    pose proof (wf_published _ Hwf) as Hval.
    destruct HS; proj_simpl;
      try (by split_and!);
      rewrite published_trace_snoc, encoded_trace_snoc;
      repeat case_decide; try done;
      rewrite ?published_infer_plots, ?encoded_infer_plots;
      simpl published; simpl encoded;
      rewrite ?app_nil_r; try (by split_and!).
    + assert (Hold : ∀ l, l ∈ published (thread_trace Detect lg) →
                          l < length h).
      { intros l Hl. destruct (Hle _ Hl) as (p0 & -> & Hp0).
        specialize (Hval _ eq_refl). simpl in Hval. lia. }
      split_and!.
      * apply StronglySorted_app_2; [|done|repeat constructor].
        intros x1 x2 Hx1 ->%list_elem_of_singleton. by apply Hold.
      * intros l [= <-]. apply elem_of_app. right. by left.
      * intros l [Hl| ->%list_elem_of_singleton]%elem_of_app.
        -- exists (length h). split; [done|]. specialize (Hold _ Hl). lia.
        -- by exists (length h).
      * done.
      * intros l Hl. destruct (Hen _ Hl) as [Hpub _]. split.
        -- apply elem_of_app. by left.
        -- exists (length h). split; [done|]. specialize (Hold _ Hpub). lia.
    + split_and!; try done.
      * apply StronglySorted_app_2; [|done|repeat constructor].
        intros x1 x2 Hx1 ->%list_elem_of_singleton.
        destruct (Hen _ Hx1) as [_ (p0 & [= <-] & Hp0)]. done.
      * intros l [Hl| ->%list_elem_of_singleton]%elem_of_app.
        -- by apply Hen.
        -- split; [by apply Hcur|]. by exists frame.
Qed.

(** X11 (frames reach a client in order).  Under every schedule, the
    arrays the detector published have increasing references, in the
    order of publication; every array a client encoded is one of them;
    and the client encoded them in that order, possibly one of them
    several times: it is never served an older frame after a newer
    one. *)
Theorem clients_see_frames_in_order (sched : list tid) (n : nat) :
  let σ := run sched initial in
  let pub := published (thread_trace Detect (log σ)) in
  let enc := encoded (thread_trace (Client n) (log σ)) in
  StronglySorted lt pub
  ∧ StronglySorted le enc
  ∧ ∀ l, l ∈ enc → l ∈ pub.
Proof.
  intros σ pub enc. subst σ pub enc.
  destruct (publication_order sched n) as (H1 & _ & _ & H2 & H3).
  split_and!; [done|done|]. intros l Hl. by apply H3.
Qed.

Lemma puts_trace_snoc lg t tr :
  puts (thread_trace Capture (lg ++ tag t tr))
  = puts (thread_trace Capture lg)
    ++ (if decide (t = Capture) then puts tr else []).
Proof.
  rewrite thread_trace_snoc. unfold puts. rewrite omap_app.
  by case_decide.
Qed.

Lemma contents_grow (h h' : list ndarray) (ls : list loc) :
  Forall (λ l, l < length h) ls →
  omap (λ l, (h ++ h') !! l) ls = omap (λ l, h !! l) ls.
Proof.
  induction 1 as [|l ls Hl _ IH]; [done|].
  csimpl. rewrite IH. by rewrite lookup_app_l.
Qed.

Lemma delivered_S k :
  flat_map (λ k, default [] (camera k)) (seq 0 (S k))
  = flat_map (λ k, default [] (camera k)) (seq 0 k) ++ default [] (camera k).
Proof. rewrite seq_S, flat_map_app. simpl. by rewrite app_nil_r. Qed.

(** The arrays the capture thread has put hold what the camera has
    delivered. *)
Lemma capture_contents sched :
  let σ := run sched initial in
  ∀ c, capture σ = Running c →
    let ps := puts (thread_trace Capture (log σ)) in
    Forall (λ l, l < length (heap (shared σ))) ps
    ∧ omap (λ l, heap (shared σ) !! l) ps ++ pending (Running c)
      = flat_map (λ k, default [] (camera k)) (seq 0 (attempts c)).
Proof.
  apply (reach_ind camera model imencode (λ σ,
    ∀ c, capture σ = Running c →
      let ps := puts (thread_trace Capture (log σ)) in
      Forall (λ l, l < length (heap (shared σ))) ps
      ∧ omap (λ l, heap (shared σ) !! l) ps ++ pending (Running c)
        = flat_map (λ k, default [] (camera k)) (seq 0 (attempts c)))).
  - apply wf_initial.
  - simpl. intros c [= <-]. by split.
  - intros t σ σ' _ IH HS.
    destruct HS; proj_simpl; try exact IH;
      intros c Hc; cbv zeta;
      rewrite puts_trace_snoc; case_decide; try done;
      rewrite ?app_nil_r;
      try (injection Hc as <-);
      destruct (IH _ ltac:(first [exact Hc | reflexivity])) as [Hv Hd];
      cbn [attempts retries cap_at pending] in *;
      try (split; [exact Hv | exact Hd]).
    + rewrite delivered_S, H. simpl. rewrite !app_nil_r in *. by split.
    + rewrite delivered_S, H. simpl. rewrite !app_nil_r in *.
      split; [done|]. by rewrite Hd.
    + assert (Hp : puts ([Read (Some (length h)); LockAcquire;
                          QueueEmpty (Queue.empty (Queue.mk 1 items))]
                         ++ map QueueGet items
                         ++ [QueuePut (length h); LockRelease])
                   = [length h]).
      { unfold puts. rewrite !omap_app. fold (puts (map QueueGet items)).
        by rewrite puts_gets. }
      rewrite Hp. split.
      * apply Forall_app. split; [by apply Forall_lt_grow|].
        apply Forall_singleton. rewrite length_app. simpl. lia.
      * rewrite omap_app, (contents_grow _ _ _ Hv). simpl.
        rewrite list_lookup_middle by done. simpl.
        rewrite <- app_assoc. exact Hd.
    + split; [by apply Forall_lt_grow|]. by rewrite (contents_grow _ _ _ Hv).
    + split; [by apply Forall_lt_grow|]. by rewrite (contents_grow _ _ _ Hv).
Qed.

(** X12 (capture delivers the camera's frames).  Under every schedule,
    the arrays the capture thread has put into the queue hold, in order
    and unaltered, the frames the camera has delivered to the captures
    constructed so far, but for those of the open capture that are still
    to be read: every frame read is put, once. *)
Theorem captured_frames_delivered (sched : list tid) :
  let σ := run sched initial in
  ∃ c, capture σ = Running c
       ∧ omap (λ l, heap (shared σ) !! l)
              (puts (thread_trace Capture (log σ)))
         ++ pending (capture σ)
         = flat_map (λ k, default [] (camera k)) (seq 0 (attempts c)).
Proof.
  intros σ. subst σ.
  destruct (wf_capture _ (reachable_wf camera model imencode sched)) as [c Hc].
  destruct (capture_contents sched c Hc) as [_ Hd].
  exists c. by rewrite Hc.
Qed.

End Coverage.

(** X1 (the framing of a chunk).  For every buffer, the chunk that
    [generate_frames] yields is the dash-boundary line of the boundary
    that [video_feed] declares in its mimetype, the content type, an
    empty line, the buffer and a line end: 39 bytes more than the buffer,
    which is read back by dropping the 37 bytes before it and the 2 after
    it, so that different buffers never give the same chunk. *)
Theorem chunk_framing (buffer : list byte) :
  chunk_of buffer
  = list_byte_of_string (String.append "--" boundary) ++ CRLF
    ++ list_byte_of_string "Content-Type: image/jpeg" ++ CRLF ++ CRLF
    ++ buffer ++ CRLF
  ∧ video_feed_mimetype
    = String.append "multipart/x-mixed-replace; boundary=" boundary
  ∧ length (chunk_of buffer) = 37 + length buffer + 2
  ∧ take (length buffer) (drop 37 (chunk_of buffer)) = buffer
  ∧ drop (length buffer) (drop 37 (chunk_of buffer)) = CRLF
  ∧ ∀ other, chunk_of buffer = chunk_of other → buffer = other.
Proof.
  assert (Hdrop : ∀ b, drop 37 (chunk_of b) = b ++ CRLF) by reflexivity.
  split_and!.
  - reflexivity.
  - reflexivity.
  - unfold chunk_of. rewrite !length_app. simpl. lia.
  - rewrite Hdrop. by rewrite take_app_length.
  - rewrite Hdrop. by rewrite drop_app_length.
  - intros other Heq. apply (f_equal (drop 37)) in Heq.
    rewrite !Hdrop in Heq. by apply app_inv_tail in Heq.
Qed.

(** A client served after the demo run. *)
Lemma stream_integrity_witness :
  let σ := Demo.run (Demo.sched_published ++ [Client 0]) initial in
  ∃ l a, l ∈ published (thread_trace Detect (log σ))
         ∧ heap (shared σ) !! l = Some a
         ∧ chunk_of (Demo.imencode [x01; xff]) = chunk_of (Demo.imencode a).
Proof.
  apply (stream_integrity Demo.camera Demo.model Demo.imencode
           (Demo.sched_published ++ [Client 0]) 0
           (chunk_of (Demo.imencode [x01; xff]))).
  vm_compute. left.
Defined.

(** Two frames captured, none taken: the slot holds the second. *)
Lemma slot_holds_latest_witness :
  let σ := Demo.run [Capture; Capture; Capture; Capture; Capture] initial in
  last (puts (map snd (log σ))) = Some 1
  ∧ ∃ s', slot_take_if_present (shared σ)
          = (Done (Some 1), s',
             [LockAcquire; QueueEmpty false; QueueGet 1; LockRelease]).
Proof.
  apply (slot_holds_latest Demo.camera Demo.model Demo.imencode
           [Capture; Capture; Capture; Capture; Capture] 1).
  reflexivity.
Defined.

(** The detector holds the first frame of the demo camera; a capture and
    a client take a turn before it publishes. *)
Lemma published_is_last_plot_witness :
  let σ := Demo.run [Capture; Capture; Capture; Capture; Detect] initial in
  let σ' := Demo.step Detect
              (Demo.run [Capture; Client 3] (Demo.step Detect σ)) in
  ∃ p, processed_frame (shared σ') = Some p
       ∧ heap (shared σ') !! p = Some [x01; xff]
       ∧ heap (shared σ) !! p = None
       ∧ detect σ' = Running AtTake.
Proof.
  apply (published_is_last_plot Demo.camera Demo.model Demo.imencode
           [Capture; Capture; Capture; Capture; Detect] [Capture; Client 3]
           0 [x01] [[x01; xff]]).
  - reflexivity.
  - reflexivity.
  - reflexivity.
  - repeat constructor; discriminate.
Defined.

(** The detector of the demo run dies on the second frame; clients and
    the capture thread go on. *)
Lemma stream_freezes_after_crash_witness :
  let σ := Demo.run (Demo.sched_published ++ [Detect]) initial in
  ∃ more,
    sent (Demo.run [Client 0; Capture; Client 1; Detect; Client 0] σ)
    = sent σ ++ more
    ∧ Forall (λ nc, nc.2 = chunk_of (Demo.imencode [x01; xff])) more.
Proof.
  apply (stream_freezes_after_crash Demo.camera Demo.model Demo.imencode
           (Demo.sched_published ++ [Detect])
           [Client 0; Capture; Client 1; Detect; Client 0] 2 [x01; xff]);
    reflexivity.
Defined.
